(** * Shot segmentation and the cut-and-upload pipeline

    A shallow embedding of [utils/shotcutter/segmenter.py] (the class
    [SmartSegmenter]) and of [utils/shotcutter/cutter.py] together with
    [utils/shotcutter/oss_uploader.py], followed by the properties of the
    specification that concern them.  The program and the vocabulary of
    its properties come first, lemmas and theorems after them.

    Numbers.  The Python code computes with [float] (and an [int]
    [max_duration]).  The segmenter is embedded once, over an arbitrary
    carrier with the five operations the source uses ([0.0], [+], [-], [<=],
    [>]).  Structural facts (which value is stored where) are proved for
    every carrier, so they hold for IEEE doubles as well; facts of arithmetic
    are proved for the carrier [Q] of exact rationals, and the concrete
    scenario is evaluated both over [Q] and over binary64 floats.

    The world.  The media tool, the file system, the object store and the
    order in which futures complete are parameters: every statement about
    the pipeline holds for all of them.

    The rest of the package.  The other functions of these files (the
    truncation and the statistics of the segmenter, the worker pools, the
    two older entry points of the cutter), the construction of the shots in
    [utils/shotcutter/detector.py] and the entry points of
    [utils/shotcutter/__init__.py] are embedded after them, and their
    properties close the development. *)

From stdpp Require Import gmap strings list fin_maps sorting pretty.
From Stdlib Require Import Ascii QArith Qround Lqa Floats.

(** ** Numeric carriers *)

Class Number (T : Type) := {
  num_zero : T;
  num_add : T → T → T;
  num_sub : T → T → T;
  num_le : T → T → bool;
  num_gt : T → T → bool
}.

Definition Qgt_bool (a b : Q) : bool :=
  (Qnum b * QDen a <? Qnum a * QDen b)%Z.

#[export] Instance Q_number : Number Q := {|
  num_zero := 0%Q;
  num_add := Qplus;
  num_sub := Qminus;
  num_le := Qle_bool;
  num_gt := Qgt_bool
|}.

#[export] Instance float_number : Number float := {|
  num_zero := 0%float;
  num_add := PrimFloat.add;
  num_sub := PrimFloat.sub;
  num_le := PrimFloat.leb;
  num_gt := fun a b => PrimFloat.ltb b a
|}.

(** ** The segmenter, [segmenter.py] *)

Module Segmenter.

Section Code.
Context {T : Type} `{Number T}.

(** [detector.Shot], a dataclass of five fields. *)
Record Shot := {
  start_frame : Z;
  end_frame : Z;
  start_time : T;
  end_time : T;
  duration : T
}.

(** The three local variables of [segment] that survive an iteration of
    its [for] loop. *)
Record state := {
  segments : list (T * T);
  current_start : T;
  accumulated_duration : T
}.

Variable max_duration : T.

(** Lines 82-85: [while remaining > self.max_duration].  The loop need
    not terminate (take [max_duration = 0]), hence the fuel: [None] means
    that [fuel] iterations did not reach the exit. *)
Fixpoint hard_split (fuel : nat) (segs : list (T * T))
    (shot_start remaining : T) : option (list (T * T) * T * T) :=
  if num_gt remaining max_duration then
    match fuel with
    | O => None
    | S fuel' =>
        hard_split fuel'
          (segs ++ [(shot_start, num_add shot_start max_duration)])
          (num_add shot_start max_duration)
          (num_sub remaining max_duration)
    end
  else Some (segs, shot_start, remaining).

(** Lines 72-76 and 99-102: the segment under construction is appended
    when it has content, and the next one starts where it ends.  The
    oversize case also resets the accumulator here ([reset = true]). *)
Definition save_current (reset : bool) (st : state) : state :=
  if num_gt (accumulated_duration st) num_zero then
    let current_end :=
      num_add (current_start st) (accumulated_duration st) in
    {| segments := segments st ++ [(current_start st, current_end)];
       current_start := current_end;
       accumulated_duration :=
         if reset then num_zero else accumulated_duration st |}
  else st.

(** Lines 65-105: the body of [for i, shot in enumerate(shots)]. *)
Definition step (fuel : nat) (st : state) (shot : Shot) : option state :=
  if num_le (num_add (accumulated_duration st) (duration shot))
       max_duration then
    Some {| segments := segments st;
            current_start := current_start st;
            accumulated_duration :=
              num_add (accumulated_duration st) (duration shot) |}
  else if num_gt (duration shot) max_duration then
    let st1 := save_current true st in
    match hard_split fuel (segments st1) (current_start st1)
            (duration shot) with
    | None => None
    | Some (segs, shot_start, remaining) =>
        if num_gt remaining num_zero then
          Some {| segments :=
                    segs ++ [(shot_start, num_add shot_start remaining)];
                  current_start := num_add shot_start remaining;
                  accumulated_duration := num_zero |}
        else
          Some {| segments := segs;
                  current_start := shot_start;
                  accumulated_duration := num_zero |}
    end
  else
    let st1 := save_current false st in
    Some {| segments := segments st1;
            current_start := current_start st1;
            accumulated_duration := duration shot |}.

Fixpoint for_shots (fuel : nat) (st : state) (shots : list Shot)
    : option state :=
  match shots with
  | [] => Some st
  | shot :: rest =>
      match step fuel st shot with
      | None => None
      | Some st' => for_shots fuel st' rest
      end
  end.

Definition initial : state :=
  {| segments := []; current_start := num_zero;
     accumulated_duration := num_zero |}.

(** Lines 107-110: the last segment is kept however short. *)
Definition finish (st : state) : list (T * T) :=
  if num_gt (accumulated_duration st) num_zero then
    segments st ++
      [(current_start st,
        num_add (current_start st) (accumulated_duration st))]
  else segments st.

(** [SmartSegmenter.segment]; the printing and the advisory continuity
    check after line 110 do not change the returned list. *)
Definition segment (fuel : nat) (shots : list Shot)
    : option (list (T * T)) :=
  match shots with
  | [] => Some []
  | _ => finish <$> for_shots fuel initial shots
  end.

(** [segment] returns [segs]: every large enough bound on the iterations
    of the inner loop gives that list. *)
Definition returns (shots : list Shot) (segs : list (T * T)) : Prop :=
  ∃ fuel0, ∀ fuel, (fuel0 ≤ fuel)%nat → segment fuel shots = Some segs.

(** A seamless chain of segments from [a] to [b]. *)
Inductive chain : T → list (T * T) → T → Prop :=
| chain_nil a : chain a [] a
| chain_cons a m segs b :
    chain m segs b → chain a ((a, m) :: segs) b.

Definition seamless (segs : list (T * T)) : Prop :=
  ∀ i s s', segs !! i = Some s → segs !! S i = Some s' → s'.1 = s.2.

Definition starts_at (a : T) (segs : list (T * T)) : Prop :=
  ∀ s, head segs = Some s → s.1 = a.

End Code.

Arguments Shot T : clear implicits.
Arguments state T : clear implicits.


(** *** Vocabulary of the properties *)

Section Invariant.
Context {T : Type} `{Number T}.

(** The loop invariant behind seamlessness: the segments emitted so far
    form a chain from [0.0] to [current_start]. *)
Definition linked (st : state T) : Prop :=
  chain num_zero (segments st) (current_start st).

End Invariant.

Definition seg_duration (s : Q * Q) : Q := (s.2 - s.1)%Q.

Definition sum_Q (l : list Q) : Q := foldr Qplus 0%Q l.

Definition total_duration (shots : list (Shot Q)) : Q :=
  sum_Q (duration <$> shots).

(** The shot lists of the data model: contiguous from [t] on, each shot
    with [duration = end_time - start_time > 0]. *)
Fixpoint covering (t : Q) (shots : list (Shot Q)) : Prop :=
  match shots with
  | [] => True
  | shot :: rest =>
      (start_time shot == t)%Q ∧
      (duration shot == end_time shot - start_time shot)%Q ∧
      (0 < duration shot)%Q ∧
      covering (end_time shot) rest
  end.

(** What has been emitted plus what is being accumulated is the duration
    of the shots consumed so far. *)
Definition conserved (total : Q) (st : state Q) : Prop :=
  linked st ∧ (0 <= accumulated_duration st)%Q ∧
  (current_start st + accumulated_duration st == total)%Q.

Section Bound.
Variable max_duration : Q.
Local Open Scope Q_scope.

(** Iterations of the inner loop that a shot of duration [d] can need. *)
Definition iterations (d : Q) : nat := Z.to_nat (Qceiling (d / max_duration)).

Definition fuel_for (shots : list (Shot Q)) : nat :=
  foldr (λ shot n, iterations (duration shot) `max` n)%nat 0%nat shots.

Definition within (s : Q * Q) : Prop := seg_duration s <= max_duration.

Definition bounded (st : state Q) : Prop :=
  Forall within (segments st) ∧ accumulated_duration st <= max_duration.


End Bound.

End Segmenter.

(** ** The cutter, [cutter.py] and [oss_uploader.py] *)

Module Cutter.

(** *** Python values, exceptions and the builtins the code calls *)

(** What the result dicts hold. *)
Inductive value :=
| VNone
| VInt (n : Z)
| VFloat (x : Q)
| VStr (s : string).

Abbreviation dict := (gmap string value).

(** Exceptions, as far as the handlers tell them apart:
    [subprocess.TimeoutExpired], and any other subclass of [Exception]
    with its [str(e)].  [KeyboardInterrupt] and [SystemExit] are not
    [Exception]s and are outside the model. *)
Inductive exn :=
| TimeoutExpired (msg : string)
| Error (msg : string).

Definition str_exn (e : exn) : string :=
  match e with TimeoutExpired msg => msg | Error msg => msg end.

Inductive result (A : Type) :=
| Return (a : A)
| Raise (e : exn).
Arguments Return {A} a.
Arguments Raise {A} e.

#[export] Instance result_ret : MRet result := λ A a, Return a.
#[export] Instance result_bind : MBind result := λ A B k m,
  match m with Return a => k a | Raise e => Raise e end.

(** [try: body / except Exception as e: handler e]. *)
Definition try_except {A} (body : result A) (handler : exn → result A)
    : result A :=
  match body with Return a => Return a | Raise e => handler e end.

(** [future.result()] over a list of finished futures: the first worker
    exception, if any, is raised again in the caller. *)
Fixpoint collect {A} (futures : list (result A)) : result (list A) :=
  match futures with
  | [] => Return []
  | f :: rest => a ← f; l ← collect rest; Return (a :: l)
  end.

(** [round(x)] and [round(x, 1)]: to the nearest, ties to the even
    neighbour. *)
Definition round_half_even (x : Q) : Z :=
  let f := Qfloor x in
  match (x - inject_Z f ?= 1 # 2)%Q with
  | Lt => f
  | Gt => (f + 1)%Z
  | Eq => if Z.even f then f else (f + 1)%Z
  end.

Definition round1 (x : Q) : Q := (inject_Z (round_half_even (x * 10)) / 10)%Q.

(** [int(x)] of a float: truncation toward zero. *)
Definition int_of_float (x : Q) : Z :=
  if Qle_bool 0 x then Qfloor x else Qceiling x.

(** [str.isspace] and the decimal digits, for ASCII characters. *)
Definition is_space (c : Ascii.ascii) : bool :=
  let n := Ascii.nat_of_ascii c in
  ((9 <=? n) && (n <=? 13) || (28 <=? n) && (n <=? 32))%nat.

Definition digit_of (c : Ascii.ascii) : option Z :=
  let n := Ascii.nat_of_ascii c in
  if ((48 <=? n) && (n <=? 57))%nat then Some (Z.of_nat (n - 48)) else None.

Fixpoint lstrip (s : string) : string :=
  match s with
  | String c rest => if is_space c then lstrip rest else s
  | EmptyString => EmptyString
  end.

Fixpoint rstrip (s : string) : string :=
  match s with
  | EmptyString => EmptyString
  | String c rest =>
      match rstrip rest with
      | EmptyString => if is_space c then EmptyString else String c EmptyString
      | kept => String c kept
      end
  end.

Definition strip (s : string) : string := rstrip (lstrip s).

(** The digits of a numeral, single underscores allowed between two
    digits; [acc] is the value read so far. *)
Fixpoint digits (acc : Z) (after_digit : bool) (s : string) : option Z :=
  match s with
  | EmptyString => if after_digit then Some acc else None
  | String c rest =>
      match digit_of c with
      | Some d => digits (10 * acc + d) true rest
      | None =>
          if Ascii.eqb c "_"%char && after_digit then digits acc false rest
          else None
      end
  end.

(** [int(s)] of a string, base 10: surrounding white space, an optional
    sign, then the digits; [None] stands for [ValueError].  ASCII only. *)
Definition int_of_string (s : string) : option Z :=
  match strip s with
  | EmptyString => None
  | String c rest =>
      if Ascii.eqb c "+"%char then digits 0 false rest
      else if Ascii.eqb c "-"%char then Z.opp <$> digits 0 false rest
      else digits 0 false (String c rest)
  end.

(** [s[-n:]]. *)
Definition last_chars (n : nat) (s : string) : string :=
  String.substring (String.length s - n) n s.

(** The extension of [os.path.splitext]: from the last dot of the last
    path component on, leading dots of the component not counted. *)
Fixpoint has_slash (s : string) : bool :=
  match s with
  | EmptyString => false
  | String c rest => Ascii.eqb c "/"%char || has_slash rest
  end.

Fixpoint basename (s : string) : string :=
  match s with
  | EmptyString => EmptyString
  | String c rest => if has_slash s then basename rest else s
  end.

Fixpoint skip_dots (s : string) : string :=
  match s with
  | String "."%char rest => skip_dots rest
  | _ => s
  end.

Fixpoint from_last_dot (s : string) : option string :=
  match s with
  | EmptyString => None
  | String c rest =>
      match from_last_dot rest with
      | Some ext => Some ext
      | None => if Ascii.eqb c "."%char then Some s else None
      end
  end.

Definition splitext_ext (path : string) : string :=
  default EmptyString (from_last_dot (skip_dots (basename path))).

(** [os.path.join(a, b)] for a relative [b]. *)
Definition path_join (a b : string) : string :=
  match String.rev a with
  | EmptyString => b
  | String "/"%char _ => a +:+ b
  | _ => a +:+ "/" +:+ b
  end.

(** *** [get_max_workers] *)

(** [x or d] for an [int] or [None]. *)
Definition int_or (x : option Z) (d : Z) : Z :=
  match x with
  | Some n => if (n =? 0)%Z then d else n
  | None => d
  end.

(** [cpu_count] is what [os.cpu_count()] returns and [env_workers] what
    [os.environ.get('SHOTCUTTER_MAX_WORKERS')] returns. *)
Definition get_max_workers (cpu_count : option Z) (env_workers : option string)
    : Z :=
  let cpu_count := int_or cpu_count 4 in
  let workers := int_of_float (inject_Z cpu_count * 0.6) in
  let workers := Z.max 2 (Z.min 48 workers) in
  match env_workers with
  | Some (String _ _ as env_workers) =>
      match int_of_string env_workers with
      | Some n => n
      | None => workers
      end
  | _ => workers
  end.

(** The same product and truncation on binary64 floats, as the interpreter
    computes them ([int] of an infinity or a NaN raises; a CPU count does
    not lead there). *)
Definition int_of_binary64 (x : float) : Z :=
  match Prim2SF x with
  | S754_finite sign m e =>
      let magnitude :=
        if (0 <=? e)%Z then Z.shiftl (Z.pos m) e
        else Z.shiftr (Z.pos m) (- e) in
      if sign then (- magnitude)%Z else magnitude
  | _ => 0%Z
  end.

Definition workers_binary64 (cpu_count : Z) : Z :=
  int_of_binary64 (PrimFloat.mul (PrimFloat.of_uint63 (Uint63.of_Z cpu_count))
                     0x1.3333333333333p-1%float).

(** *** The workers and the pipeline *)

(** What [subprocess.run] hands back when the command ran to its end. *)
Record CompletedProcess := {
  returncode : Z;
  stderr : string
}.

(** The command line of [_cut_single_segment]: [ffmpeg -y -ss <ss> -t <t>
    -i <input> -c copy -avoid_negative_ts make_zero <output>]. *)
Record ffmpeg := {
  ss : Q;
  t : Q;
  input : string;
  output : string
}.

(** The dict returned by [_cut_single_segment]; the key ["error"] is
    present in the failure dicts only. *)
Record CutResult := {
  cut_index : Z;
  cut_path : option string;
  cut_start : Q;
  cut_end : Q;
  cut_status : string;
  cut_error : option string
}.

Definition index_of (r : dict) : Z :=
  match r !! "index" with Some (VInt n) => n | _ => 0%Z end.

(** [key=lambda x: x["index"]]. *)
Definition index_le (r1 r2 : dict) : Prop := (index_of r1 ≤ index_of r2)%Z.

#[export] Instance index_le_dec : RelDecision index_le.
Proof. intros r1 r2. unfold index_le. apply _. Defined.

#[export] Instance Q_eq_dec : EqDecision Q.
Proof. solve_decision. Defined.

#[export] Instance value_eq_dec : EqDecision value.
Proof. solve_decision. Defined.

(** The two dict literals of [_upload_single_segment], lines 197-205 and
    207-216. *)
Definition upload_success (index : Z) (start end_ : Q) (task_id oss_url : string)
    : dict :=
  <["index" := VInt index]> (
  <["start" := VFloat (round1 start)]> (
  <["end" := VFloat (round1 end_)]> (
  <["duration" := VFloat (round1 (end_ - start))]> (
  <["task_id" := VStr task_id]> (
  <["oss_url" := VStr oss_url]> (
  <["status" := VStr "success"]> ∅)))))).

Definition upload_failed (index : Z) (start end_ : Q) (task_id error : string)
    : dict :=
  <["index" := VInt index]> (
  <["start" := VFloat (round1 start)]> (
  <["end" := VFloat (round1 end_)]> (
  <["duration" := VFloat (round1 (end_ - start))]> (
  <["task_id" := VStr task_id]> (
  <["oss_url" := VNone]> (
  <["status" := VStr "failed"]> (
  <["error" := VStr error]> ∅))))))).

Section World.
(** The collaborators: the media tool, the file system, the object store,
    the scratch directory and the order in which futures complete. *)
Variable subprocess_run : ffmpeg → result CompletedProcess.
Variable open_rb : string → result string.
Variable put_object : string → string → result Z.
Variable bucket_name : string.
Variable temp_dir : string.
Variable as_completed : ∀ A, list A → list A.

Definition _cut_single_segment (args : string * Q * Q * string * Z)
    : result CutResult :=
  let '(video_path, start, end_, output_path, index) := args in
  let duration := (end_ - start)%Q in
  try_except
    (result ← subprocess_run
       {| ss := start; t := duration; input := video_path;
          output := output_path |};
     if (returncode result =? 0)%Z then
       Return {| cut_index := index; cut_path := Some output_path;
                 cut_start := start; cut_end := end_;
                 cut_status := "success"; cut_error := None |}
     else
       let error_msg := last_chars 200 (stderr result) in
       Return {| cut_index := index; cut_path := None;
                 cut_start := start; cut_end := end_;
                 cut_status := "failed";
                 cut_error := Some ("ffmpeg错误: " +:+ error_msg) |})
    (λ e,
       match e with
       | TimeoutExpired _ =>
           Return {| cut_index := index; cut_path := None;
                     cut_start := start; cut_end := end_;
                     cut_status := "failed";
                     cut_error := Some "切割超时（5分钟）" |}
       | Error _ =>
           Return {| cut_index := index; cut_path := None;
                     cut_start := start; cut_end := end_;
                     cut_status := "failed";
                     cut_error := Some (str_exn e) |}
       end).

(** [oss_uploader.upload_to_oss_from_local]; [open] of [None] is a
    [TypeError]. *)
Definition upload_to_oss_from_local (video_path : option string)
    (task_id : string) : result string :=
  match video_path with
  | None => Raise (Error "expected str, bytes or os.PathLike object, not NoneType")
  | Some video_path =>
      video_content ← open_rb video_path;
      let file_extension :=
        match splitext_ext video_path with
        | EmptyString => ".mp4"
        | ext => ext
        end in
      let object_key := task_id +:+ file_extension in
      status ← put_object object_key video_content;
      if (status =? 200)%Z then
        Return ("https://" +:+ bucket_name +:+
                ".oss-cn-hangzhou.aliyuncs.com/" +:+ object_key)
      else Return (pretty status)
  end.

Definition _upload_single_segment (args : option string * string * Z * Q * Q)
    : result dict :=
  let '(local_path, task_id, index, start, end_) := args in
  try_except
    (oss_url ← upload_to_oss_from_local local_path task_id;
     Return (upload_success index start end_ task_id oss_url))
    (λ e, Return (upload_failed index start end_ task_id (str_exn e))).

(** Lines 256-260: the task of the segment at position [idx]. *)
Definition cut_task (video_path : string) (idx : nat) (seg : Q * Q)
    : string * Q * Q * string * Z :=
  let '(start, end_) := seg in
  let output_path :=
    path_join temp_dir
      ("segment_" +:+ pretty (Z.of_nat idx + 1)%Z +:+ ".mp4") in
  (video_path, start, end_, output_path, (Z.of_nat idx + 1)%Z).

Definition cut_tasks (video_path : string) (segments : list (Q * Q))
    : list (string * Q * Q * string * Z) :=
  imap (cut_task video_path) segments.

(** Lines 284-293. *)
Definition upload_task (name : string) (result : CutResult)
    : option string * string * Z * Q * Q :=
  let task_id := name +:+ "-" +:+ pretty (cut_index result) in
  (cut_path result, task_id, cut_index result,
   cut_start result, cut_end result).

Definition cut_and_upload (video_path : string) (segments : list (Q * Q))
    (name : string) : result (list dict) :=
  let futures := _cut_single_segment <$> cut_tasks video_path segments in
  cut_results ← collect (as_completed _ futures);
  let success_cuts :=
    filter (λ r, cut_status r = "success") cut_results in
  let upload_tasks := upload_task name <$> success_cuts in
  let futures := _upload_single_segment <$> upload_tasks in
  upload_results ← collect (as_completed _ futures);
  let final_results :=
    merge_sort index_le
      (filter (λ r : dict, r !! "status" = Some (VStr "success"))
         upload_results) in
  Return (delete "status" <$> final_results).

(** The workers never raise (see [cut_outcome_eq] and
    [upload_outcome_eq]), so each has an outcome. *)
Definition cut_outcome (args : string * Q * Q * string * Z) : CutResult :=
  match _cut_single_segment args with
  | Return c => c
  | Raise _ =>
      {| cut_index := 0; cut_path := None; cut_start := 0; cut_end := 0;
         cut_status := "failed"; cut_error := None |}
  end.

Definition upload_outcome (args : option string * string * Z * Q * Q) : dict :=
  match _upload_single_segment args with Return u => u | Raise _ => ∅ end.

(** The segment of 1-based index [i] was reported cut and reported
    uploaded. *)
Definition both_reported_success (video_path : string)
    (segments : list (Q * Q)) (name : string) (i : Z) : Prop :=
  ∃ idx seg c u,
    segments !! idx = Some seg ∧ i = (Z.of_nat idx + 1)%Z ∧
    _cut_single_segment (cut_task video_path idx seg) = Return c ∧
    cut_status c = "success" ∧
    _upload_single_segment (upload_task name c) = Return u ∧
    u !! "status" = Some (VStr "success").

End World.

(** The pool size as the specification words it, with [round]. *)
Definition claimed_max_workers (cpu_count : Z) : Z :=
  Z.max 2 (Z.min 48 (round_half_even (inject_Z cpu_count * 0.6))).

(** The success criterion of a cut as the specification words it: the
    tool reports success and the produced file exists and is not empty.
    [getsize] is the size of a file once the tool has run, [None] when
    there is no such file. *)
Definition claimed_cut_success (subprocess_run : ffmpeg → result CompletedProcess)
    (getsize : string → option N) (args : string * Q * Q * string * Z)
    : Prop :=
  let '(video_path, start, end_, output_path, index) := args in
  (∃ p, subprocess_run {| ss := start; t := (end_ - start)%Q;
                          input := video_path; output := output_path |}
          = Return p ∧ returncode p = 0%Z) ∧
  (∃ size, getsize output_path = Some size ∧ (0 < size)%N).


End Cutter.

(** ** Sample inputs *)

Module Samples.
Import Segmenter Cutter.
Local Open Scope Q_scope.

(** The shots of the end-to-end scenario, at 25 frames per second. *)
Definition scenario_shots : list (Shot Q) :=
  [ {| start_frame := 0; end_frame := 250;
       start_time := 0; end_time := 10; duration := 10 |};
    {| start_frame := 250; end_frame := 625;
       start_time := 10; end_time := 25; duration := 15 |};
    {| start_frame := 625; end_frame := 825;
       start_time := 25; end_time := 33; duration := 8 |};
    {| start_frame := 825; end_frame := 1825;
       start_time := 33; end_time := 73; duration := 40 |};
    {| start_frame := 1825; end_frame := 1950;
       start_time := 73; end_time := 78; duration := 5 |} ].

(** Shots whose recorded times start at 5 seconds. *)
Definition late_shots : list (Shot Q) :=
  [ {| start_frame := 125; end_frame := 500;
       start_time := 5; end_time := 20; duration := 15 |};
    {| start_frame := 500; end_frame := 1500;
       start_time := 20; end_time := 60; duration := 40 |} ].

(** A media tool that exits with status 0 whatever it wrote. *)
Definition ffmpeg_exits_zero (cmd : ffmpeg) : result CompletedProcess :=
  Return {| returncode := 0; stderr := "" |}.

(** A scratch directory in which every file is empty. *)
Definition empty_files (path : string) : option N := Some 0%N.

(** An object store that answers every [put_object] with status 403
    without raising, and a file system in which every file can be read. *)
Definition put_object_403 (object_key content : string) : result Z :=
  Return 403%Z.

Definition readable (path : string) : result string := Return "content".

(** A run of three segments in which the second cut fails, the third
    upload is refused, and the futures complete in reverse order. *)
Definition second_cut_fails (cmd : ffmpeg) : result CompletedProcess :=
  if String.eqb (output cmd) "/tmp/shotcutter_a/segment_2.mp4"
  then Return {| returncode := 1; stderr := "Invalid data found" |}
  else Return {| returncode := 0; stderr := "" |}.

Definition third_put_raises (object_key content : string) : result Z :=
  if String.eqb object_key "clip-3.mp4"
  then Raise (Error "AccessDenied")
  else Return 200%Z.

Definition last_first (A : Type) (futures : list A) : list A := rev futures.

End Samples.

(** ** The rest of [segmenter.py] *)

Module SegmenterRest.
Import Segmenter Cutter.

Section Truncate.
Context {T : Type} `{Number T}.
Variable max_duration : T.


End Truncate.

(** [a / b] on floats: [ZeroDivisionError] when [b] is zero. *)
Definition truediv (a b : Q) : result Q :=
  if Qeq_bool b 0 then Raise (Error "float division by zero")
  else Return (a / b)%Q.

(** [sum], [min] and [max] of a list of floats; [min] and [max] raise
    [ValueError] on an empty list and keep the first of equal candidates. *)
Definition py_sum (l : list Q) : Q := foldl Qplus 0%Q l.

Definition py_min (l : list Q) : result Q :=
  match l with
  | [] => Raise (Error "min() arg is an empty sequence")
  | first :: rest =>
      Return (foldl (λ m x, if Qgt_bool m x then x else m) first rest)
  end.

Definition py_max (l : list Q) : result Q :=
  match l with
  | [] => Raise (Error "max() arg is an empty sequence")
  | first :: rest =>
      Return (foldl (λ m x, if Qgt_bool x m then x else m) first rest)
  end.

(** [SmartSegmenter.get_segment_stats], lines 161-193. *)
Definition get_segment_stats (max_duration : Q) (segments : list (Q * Q))
    : result dict :=
  match segments with
  | [] =>
      Return (<["segment_count" := VInt 0]> (
              <["total_duration" := VFloat 0]> (
              <["avg_duration" := VFloat 0]> (
              <["min_duration" := VFloat 0]> (
              <["max_duration" := VFloat 0]> (
              <["utilization_rate" := VFloat 0]> ∅))))))
  | _ =>
      let durations := (λ '(start, end_), (end_ - start)%Q) <$> segments in
      let total_duration := py_sum durations in
      let count := inject_Z (Z.of_nat (length segments)) in
      avg_duration ← truediv total_duration count;
      min_duration ← py_min durations;
      max_duration_ ← py_max durations;
      utilization ← truediv total_duration (count * max_duration);
      Return (<["segment_count" := VInt (Z.of_nat (length segments))]> (
              <["total_duration" := VFloat total_duration]> (
              <["avg_duration" := VFloat avg_duration]> (
              <["min_duration" := VFloat min_duration]> (
              <["max_duration" := VFloat max_duration_]> (
              <["utilization_rate" := VFloat (utilization * 100)]> ∅))))))
  end.




End SegmenterRest.
(** ** The worker pools of [cutter.py] *)

Module Pools.
Import Cutter.

Inductive executor_kind := ProcessPoolExecutor | ThreadPoolExecutor.

(** An executor object: what it was created with, and whether [shutdown]
    has been called on it. *)
Record executor := {
  kind : executor_kind;
  max_workers : Z;
  is_shutdown : bool
}.

(** The state of the module: the constant [MAX_WORKERS], fixed at import,
    the two globals, and the executors created so far.  An executor is
    referred to by its position in [objects]. *)
Record module_state := {
  MAX_WORKERS : Z;
  _GLOBAL_PROCESS_POOL : option nat;
  _GLOBAL_THREAD_POOL : option nat;
  objects : list executor
}.

(** Line 59, at import: [MAX_WORKERS = get_max_workers()]. *)
Definition import_module (cpu_count : option Z) (env_workers : option string)
    : module_state :=
  {| MAX_WORKERS := get_max_workers cpu_count env_workers;
     _GLOBAL_PROCESS_POOL := None;
     _GLOBAL_THREAD_POOL := None;
     objects := [] |}.

(** [ProcessPoolExecutor(max_workers=n)] and [ThreadPoolExecutor(max_workers=n)]:
    both raise [ValueError] unless [n] is positive. *)
Definition new_executor (k : executor_kind) (n : Z) (objs : list executor)
    : result (nat * list executor) :=
  if (n <=? 0)%Z then Raise (Error "max_workers must be greater than 0")
  else Return (length objs,
               objs ++ [{| kind := k; max_workers := n;
                           is_shutdown := false |}]).

(** [pool.shutdown(wait=False)]. *)
Definition shutdown (pool : nat) (objs : list executor) : list executor :=
  alter (λ e, {| kind := kind e; max_workers := max_workers e;
                 is_shutdown := true |}) pool objs.

(** Lines 67-73. *)
Definition _get_process_pool (m : module_state) : result (nat * module_state) :=
  match _GLOBAL_PROCESS_POOL m with
  | None =>
      '(pool, objs) ← new_executor ProcessPoolExecutor (MAX_WORKERS m)
                        (objects m);
      Return (pool,
              {| MAX_WORKERS := MAX_WORKERS m;
                 _GLOBAL_PROCESS_POOL := Some pool;
                 _GLOBAL_THREAD_POOL := _GLOBAL_THREAD_POOL m;
                 objects := objs |})
  | Some pool => Return (pool, m)
  end.

(** Lines 76-82. *)
Definition _get_thread_pool (m : module_state) : result (nat * module_state) :=
  match _GLOBAL_THREAD_POOL m with
  | None =>
      '(pool, objs) ← new_executor ThreadPoolExecutor (MAX_WORKERS m)
                        (objects m);
      Return (pool,
              {| MAX_WORKERS := MAX_WORKERS m;
                 _GLOBAL_PROCESS_POOL := _GLOBAL_PROCESS_POOL m;
                 _GLOBAL_THREAD_POOL := Some pool;
                 objects := objs |})
  | Some pool => Return (pool, m)
  end.

(** Lines 85-93. *)
Definition _cleanup_pools (m : module_state) : module_state :=
  let m :=
    match _GLOBAL_PROCESS_POOL m with
    | Some pool =>
        {| MAX_WORKERS := MAX_WORKERS m;
           _GLOBAL_PROCESS_POOL := None;
           _GLOBAL_THREAD_POOL := _GLOBAL_THREAD_POOL m;
           objects := shutdown pool (objects m) |}
    | None => m
    end in
  match _GLOBAL_THREAD_POOL m with
  | Some pool =>
      {| MAX_WORKERS := MAX_WORKERS m;
         _GLOBAL_PROCESS_POOL := _GLOBAL_PROCESS_POOL m;
         _GLOBAL_THREAD_POOL := None;
         objects := shutdown pool (objects m) |}
  | None => m
  end.

(** Lines 424-435: the dict of [get_pool_status]. *)
Record PoolStatus := {
  status_max_workers : Z;
  process_pool_initialized : bool;
  thread_pool_initialized : bool
}.

Definition get_pool_status (m : module_state) : PoolStatus :=
  {| status_max_workers := MAX_WORKERS m;
     process_pool_initialized := bool_decide (_GLOBAL_PROCESS_POOL m ≠ None);
     thread_pool_initialized := bool_decide (_GLOBAL_THREAD_POOL m ≠ None) |}.

(** The calls a client can make once the module is imported. *)
Inductive call := GetProcessPool | GetThreadPool | CleanupPools.

Definition run_call (c : call) (m : module_state) : module_state :=
  match c with
  | GetProcessPool =>
      match _get_process_pool m with Return (_, m') => m' | Raise _ => m end
  | GetThreadPool =>
      match _get_thread_pool m with Return (_, m') => m' | Raise _ => m end
  | CleanupPools => _cleanup_pools m
  end.

(** States reached from the import by any sequence of calls. *)
Definition after (cpu_count : option Z) (env_workers : option string)
    (calls : list call) : module_state :=
  foldl (λ m c, run_call c m) (import_module cpu_count env_workers) calls.

(** The executors that hold workers are the two globals and no other:
    every executor that is not shut down is the one a global refers to, of
    its kind, with [MAX_WORKERS] workers. *)
Definition pools_bounded (m : module_state) : Prop :=
  (∀ pool e, objects m !! pool = Some e → is_shutdown e = false →
     max_workers e = MAX_WORKERS m ∧
     match kind e with
     | ProcessPoolExecutor => _GLOBAL_PROCESS_POOL m = Some pool
     | ThreadPoolExecutor => _GLOBAL_THREAD_POOL m = Some pool
     end) ∧
  (∀ pool, _GLOBAL_PROCESS_POOL m = Some pool →
     ∃ e, objects m !! pool = Some e ∧ kind e = ProcessPoolExecutor ∧
          is_shutdown e = false) ∧
  (∀ pool, _GLOBAL_THREAD_POOL m = Some pool →
     ∃ e, objects m !! pool = Some e ∧ kind e = ThreadPoolExecutor ∧
          is_shutdown e = false).

End Pools.

(** ** The shots built by [detector.py] *)

Module Detector.
Import Segmenter Cutter SegmenterRest.
Local Open Scope Q_scope.

(** Lines 306-318 of [_build_shots_from_boundaries]: the loop over the
    boundaries, one shot from the previous boundary to each of them.  A
    frame number divided by a frame rate of zero raises
    [ZeroDivisionError]. *)
Fixpoint for_boundaries (fps : Q) (boundaries : list Z)
    (shots : list (Shot Q)) (start_frame : Z) : result (list (Shot Q) * Z) :=
  match boundaries with
  | [] => Return (shots, start_frame)
  | boundary_frame :: rest =>
      let end_frame := boundary_frame in
      start_time ← truediv (inject_Z start_frame) fps;
      end_time ← truediv (inject_Z end_frame) fps;
      duration ← truediv (inject_Z (end_frame - start_frame)) fps;
      let shot :=
        {| start_frame := start_frame; end_frame := end_frame;
           start_time := start_time; end_time := end_time;
           duration := duration |} in
      for_boundaries fps rest (shots ++ [shot]) end_frame
  end.

(** Lines 290-331. *)
Definition _build_shots_from_boundaries (boundaries : list Z) (fps : Q)
    (total_frames : Z) : result (list (Shot Q)) :=
  match boundaries with
  | [] =>
      end_time ← truediv (inject_Z (total_frames - 1)) fps;
      duration ← truediv (inject_Z (total_frames - 1)) fps;
      Return [ {| start_frame := 0; end_frame := total_frames - 1;
                  start_time := 0; end_time := end_time;
                  duration := duration |} ]
  | _ =>
      '(shots, start_frame) ← for_boundaries fps boundaries [] 0%Z;
      if (start_frame <? total_frames)%Z then
        start_time ← truediv (inject_Z start_frame) fps;
        end_time ← truediv (inject_Z (total_frames - 1)) fps;
        duration ← truediv (inject_Z (total_frames - 1 - start_frame)) fps;
        Return (shots ++
                [ {| start_frame := start_frame;
                     end_frame := total_frames - 1;
                     start_time := start_time; end_time := end_time;
                     duration := duration |} ])
      else Return shots
  end.

(** Lines 209-222 of [_detect_batch]: the shots of the scenes that the
    model reports, as pairs of frames. *)
Fixpoint shots_of_scenes (fps : Q) (scenes : list (Z * Z))
    (shots : list (Shot Q)) : result (list (Shot Q)) :=
  match scenes with
  | [] => Return shots
  | (start_frame, end_frame) :: rest =>
      start_time ← truediv (inject_Z start_frame) fps;
      end_time ← truediv (inject_Z end_frame) fps;
      let duration := end_time - start_time in
      shots_of_scenes fps rest
        (shots ++ [ {| start_frame := start_frame; end_frame := end_frame;
                       start_time := start_time; end_time := end_time;
                       duration := duration |} ])
  end.

(** What the loop appends when the frame rate is not zero. *)
Fixpoint shots_between (fps : Q) (start_frame : Z) (boundaries : list Z)
    : list (Shot Q) :=
  match boundaries with
  | [] => []
  | end_frame :: rest =>
      {| start_frame := start_frame; end_frame := end_frame;
         start_time := inject_Z start_frame / fps;
         end_time := inject_Z end_frame / fps;
         duration := inject_Z (end_frame - start_frame) / fps |}
      :: shots_between fps end_frame rest
  end.

(** Frame numbers that go up, from [first] to [last]. *)
Fixpoint ascending (first : Z) (frames : list Z) (last : Z) : Prop :=
  match frames with
  | [] => (first ≤ last)%Z
  | frame :: rest => (first ≤ frame)%Z ∧ ascending frame rest last
  end.

(** The same, without two equal frames in a row. *)
Fixpoint increasing (first : Z) (frames : list Z) (last : Z) : Prop :=
  match frames with
  | [] => (first < last)%Z
  | frame :: rest => (first < frame)%Z ∧ increasing frame rest last
  end.

End Detector.

(** ** The rest of [cutter.py]: the pipeline with its pools, and the two
    older entry points *)

Module CutterRest.
Import Cutter Pools.

(** [d[key]]: a missing key raises [KeyError], whose text is the key in
    quotes. *)
Definition getitem (d : dict) (key : string) : result value :=
  match d !! key with
  | Some v => Return v
  | None => Raise (Error ("'" +:+ key +:+ "'"))
  end.


(** [for x in items: s = body(s, x)], stopped by the first exception. *)
Fixpoint for_in {A S} (items : list A) (body : S → A → result S) (s : S)
    : result S :=
  match items with
  | [] => Return s
  | x :: rest => s' ← body s x; for_in rest body s'
  end.

Section World.
Variable subprocess_run : ffmpeg → result CompletedProcess.
Variable open_rb : string → result string.
Variable put_object : string → string → result Z.
Variable bucket_name : string.
Variable temp_dir : string.
Variable as_completed : ∀ A, list A → list A.
(** [tempfile.mkdtemp(prefix="shotcutter_cut_")] and [os.makedirs(d,
    exist_ok=True)]. *)
Variable mkdtemp : result string.
Variable makedirs : string → result ().

(** [cut_and_upload] from its first line on: lines 246-247 take the two
    pools, which raises when they cannot be created, and the pipeline
    follows.  The state of the module comes with the result. *)
Definition cut_and_upload_pooled (m : module_state) (video_path : string)
    (segments : list (Q * Q)) (name : string)
    : result (list dict) * module_state :=
  match _get_process_pool m with
  | Raise e => (Raise e, m)
  | Return (process_pool, m) =>
      match _get_thread_pool m with
      | Raise e => (Raise e, m)
      | Return (thread_pool, m) =>
          (cut_and_upload subprocess_run open_rb put_object bucket_name
             temp_dir as_completed video_path segments name, m)
      end
  end.


(** Lines 394-398: the task of the path at position [idx]. *)
Definition upload_path_task (name : string) (idx : nat) (path : string)
    : option string * string * Z * Q * Q :=
  let task_id := name +:+ "-" +:+ pretty (Z.of_nat idx + 1)%Z in
  (Some path, task_id, (Z.of_nat idx + 1)%Z, 0%Q, 0%Q).

(** Lines 378-421. *)
Definition upload_segments (m : module_state) (segment_paths : list string)
    (name : string) : result (list dict) * module_state :=
  match _get_thread_pool m with
  | Raise e => (Raise e, m)
  | Return (thread_pool, m) =>
      let upload_tasks := imap (upload_path_task name) segment_paths in
      let futures : list (result dict) :=
        _upload_single_segment open_rb put_object bucket_name
          <$> upload_tasks in
      (results ←
         for_in (as_completed _ futures)
           (λ results future,
              result ← future;
              status ← getitem result "status";
              if decide (status = VStr "success") then
                index ← getitem result "index";
                task_id ← getitem result "task_id";
                oss_url ← getitem result "oss_url";
                Return (results ++
                        [ <["index" := index]> (
                          <["task_id" := task_id]> (
                          <["oss_url" := oss_url]> ∅)) ])
              else Return results)
           [];
       Return (merge_sort index_le results), m)
  end.

End World.

End CutterRest.

(** ** The entry points of the package, [__init__.py] *)

Module Package.
Import Segmenter Cutter Pools CutterRest.
Local Open Scope Q_scope.

(** The dict returned by [process_video]; the key ["reason"] is present
    in the failure dicts only. *)
Record ProcessResult := {
  process_status : string;
  process_reason : option string;
  process_segments : list dict;
  process_total : Z;
  process_time_stats : gmap string Q
}.

Section World.
Variable subprocess_run : ffmpeg → result CompletedProcess.
Variable open_rb : string → result string.
Variable put_object : string → string → result Z.
Variable bucket_name : string.
Variable temp_dir : string.
Variable as_completed : ∀ A, list A → list A.
(** [utils.handle_video_path], which checks a local path and downloads a
    remote one, and [TransNetDetector.detect_shots], which runs the
    model. *)
Variable handle_video_path : string → result string.
Variable detect_shots : string → result (list (Shot Q)).
(** The readings of the clock: [time n] is what [process_video] gets
    from its own call number [n] of [time.time()], counted from 0 (the
    pipeline reads the clock too, for its messages). *)
Variable time : nat → Q.

(** [segment_video], lines 57-84.  The second component lists the paths
    handed to [cleanup_temp_file], which does not raise; [None] means that
    the segmenter did not return within [fuel] iterations. *)
Definition segment_video (fuel : nat) (video_path : string)
    (max_duration : Q) : option (result (list (Q * Q)) * list string) :=
  match handle_video_path video_path with
  | Raise e => Some (Raise e, [])
  | Return local_path =>
      let is_temp_file := bool_decide (local_path ≠ video_path) in
      let cleaned := if is_temp_file then [local_path] else [] in
      match detect_shots local_path with
      | Raise e => Some (Raise e, cleaned)
      | Return shots =>
          match segment max_duration fuel shots with
          | None => None
          | Some segments => Some (Return segments, cleaned)
          end
      end
  end.

(** [process_video], lines 87-175.  [time 0] is [total_start]; the
    readings 1 and 2 surround the download, 3 and 4 the detection, 5 and
    6 the cutting and uploading, and the last reading taken gives the
    total.  The handler of line 163 catches what the detection and the
    pipeline raise; [handle_video_path] is called before the [try]. *)
Definition process_video (fuel : nat) (m : module_state)
    (video_path name : string) (max_duration : Q)
    : option (result ProcessResult * list string) :=
  match handle_video_path video_path with
  | Raise e => Some (Raise e, [])
  | Return local_path =>
      let is_temp_file := bool_decide (local_path ≠ video_path) in
      let cleaned := if is_temp_file then [local_path] else [] in
      let time_stats : gmap string Q :=
        {[ "download" := round1 (time 2 - time 1) ]} in
      match detect_shots local_path with
      | Raise e =>
          let time_stats :=
            <["total" := round1 (time 4 - time 0)]> time_stats in
          Some (Return {| process_status := "failure";
                          process_reason := Some (str_exn e);
                          process_segments := [];
                          process_total := 0;
                          process_time_stats := time_stats |}, cleaned)
      | Return shots =>
          let time_stats :=
            <["detect" := round1 (time 4 - time 3)]> time_stats in
          match segment max_duration fuel shots with
          | None => None
          | Some [] =>
              let time_stats :=
                <["total" := round1 (time 5 - time 0)]> time_stats in
              Some (Return {| process_status := "failure";
                              process_reason := Some "未检测到有效片段";
                              process_segments := [];
                              process_total := 0;
                              process_time_stats := time_stats |}, cleaned)
          | Some segments =>
              match (cut_and_upload_pooled subprocess_run open_rb put_object
                       bucket_name temp_dir as_completed m local_path
                       segments name).1 with
              | Raise e =>
                  let time_stats :=
                    <["total" := round1 (time 6 - time 0)]> time_stats in
                  Some (Return {| process_status := "failure";
                                  process_reason := Some (str_exn e);
                                  process_segments := [];
                                  process_total := 0;
                                  process_time_stats := time_stats |},
                        cleaned)
              | Return results =>
                  let time_stats :=
                    <["cut_upload" := round1 (time 6 - time 5)]> time_stats in
                  let time_stats :=
                    <["total" := round1 (time 7 - time 0)]> time_stats in
                  Some (Return {| process_status := "success";
                                  process_reason := None;
                                  process_segments := results;
                                  process_total :=
                                    Z.of_nat (length results);
                                  process_time_stats := time_stats |},
                        cleaned)
              end
          end
      end
  end.

End World.

End Package.

(** * Lemmas and theorems *)

Import Segmenter Cutter Samples.

(** ** The segmenter over every carrier *)

Section Structure.
Context {T : Type} `{Number T}.
Variable max_duration : T.

Lemma hard_split_mono fuel fuel' segs a r out :
  (fuel ≤ fuel')%nat →
  hard_split max_duration fuel segs a r = Some out →
  hard_split max_duration fuel' segs a r = Some out.
Proof.
  revert fuel' segs a r.
  induction fuel as [|fuel IH]; intros fuel' segs a r Hle; simpl.
  - destruct fuel'; simpl; destruct (num_gt r max_duration); done.
  - destruct fuel' as [|fuel']; [lia|]. simpl.
    destruct (num_gt r max_duration); [|done].
    apply IH. lia.
Qed.

Lemma step_mono fuel fuel' st shot st' :
  (fuel ≤ fuel')%nat →
  step max_duration fuel st shot = Some st' →
  step max_duration fuel' st shot = Some st'.
Proof.
  intros Hle. unfold step.
  destruct (num_le _ _); [done|].
  destruct (num_gt (duration shot) _); [|done].
  destruct (hard_split _ fuel _ _ _) as [out|] eqn:E; [|done].
  by rewrite (hard_split_mono _ _ _ _ _ _ Hle E).
Qed.

Lemma for_shots_mono fuel fuel' shots st st' :
  (fuel ≤ fuel')%nat →
  for_shots max_duration fuel st shots = Some st' →
  for_shots max_duration fuel' st shots = Some st'.
Proof.
  intros Hle. revert st.
  induction shots as [|shot rest IH]; intros st; simpl; [done|].
  destruct (step _ fuel st shot) as [st1|] eqn:E; [|done].
  rewrite (step_mono _ _ _ _ _ Hle E). apply IH.
Qed.

Lemma segment_mono fuel fuel' shots segs :
  (fuel ≤ fuel')%nat →
  segment max_duration fuel shots = Some segs →
  segment max_duration fuel' shots = Some segs.
Proof.
  intros Hle. unfold segment. destruct shots as [|shot rest]; [done|].
  destruct (for_shots _ fuel _ _) as [st|] eqn:E; [|done].
  by rewrite (for_shots_mono _ _ _ _ _ Hle E).
Qed.

Lemma segment_returns fuel shots segs :
  segment max_duration fuel shots = Some segs →
  returns max_duration shots segs.
Proof. intros E. exists fuel. intros fuel' Hle. by eapply segment_mono. Qed.

Lemma returns_unique shots segs segs' :
  returns max_duration shots segs → returns max_duration shots segs' →
  segs = segs'.
Proof.
  intros [f1 H1] [f2 H2].
  specialize (H1 (f1 `max` f2)%nat ltac:(lia)).
  specialize (H2 (f1 `max` f2)%nat ltac:(lia)). congruence.
Qed.

(** Chains grow at their far end, as [list.append] does. *)
Lemma chain_snoc (a b c : T) segs :
  chain a segs b → chain a (segs ++ [(b, c)]) c.
Proof. induction 1; simpl; repeat constructor; done. Qed.

Lemma chain_seamless (a b : T) segs : chain a segs b → seamless segs.
Proof.
  induction 1 as [|a m segs b Hc IH]; intros i s s' Hi Hi'; [done|].
  destruct i as [|i]; simpl in *.
  - inversion Hi; subst; clear Hi. inversion Hc; subst; simpl in *; [done|].
    by inversion Hi'.
  - by eapply IH.
Qed.

Lemma chain_starts_at (a b : T) segs : chain a segs b → starts_at a segs.
Proof. destruct 1; intros s Hs; simpl in *; [done|]. by inversion Hs. Qed.

Lemma chain_last (a b : T) segs s :
  chain a segs b → last segs = Some s → s.2 = b.
Proof.
  induction 1 as [|a m segs b Hc IH]; [done|].
  destruct segs as [|s' segs]; simpl.
  - inversion Hc; subst. by intros [= <-].
  - intros Hl. by apply IH.
Qed.

Lemma hard_split_chain fuel a segs b r segs' b' r' :
  chain a segs b →
  hard_split max_duration fuel segs b r = Some (segs', b', r') →
  chain a segs' b'.
Proof.
  revert segs b r. induction fuel as [|fuel IH]; intros segs b r Hc; simpl.
  - destruct (num_gt r max_duration); [done|]. by intros [= <- <- <-].
  - destruct (num_gt r max_duration); [|by intros [= <- <- <-]].
    apply IH. by apply chain_snoc.
Qed.

Lemma save_current_linked reset st :
  linked st → linked (save_current reset st).
Proof.
  unfold linked, save_current. intros Hc.
  destruct (num_gt _ _); simpl; [|done]. by apply chain_snoc.
Qed.

Lemma step_linked fuel st shot st' :
  linked st → step max_duration fuel st shot = Some st' → linked st'.
Proof.
  intros Hc. unfold step.
  destruct (num_le _ _); [by intros [= <-]|].
  destruct (num_gt (duration shot) _).
  - destruct (hard_split _ _ _ _ _) as [[[segs b] r]|] eqn:E; [|done].
    eapply hard_split_chain in E; [|by apply (save_current_linked true)].
    destruct (num_gt r num_zero); intros [= <-]; unfold linked; simpl;
      [by apply chain_snoc|done].
  - intros [= <-]. by apply (save_current_linked false).
Qed.

Lemma for_shots_linked fuel shots st st' :
  linked st → for_shots max_duration fuel st shots = Some st' → linked st'.
Proof.
  revert st. induction shots as [|shot rest IH]; intros st Hc; simpl.
  - by intros [= <-].
  - destruct (step _ _ _ _) as [st1|] eqn:E; [|done].
    apply IH. by eapply step_linked.
Qed.

Lemma finish_chain st :
  linked st → ∃ b, chain num_zero (finish st) b.
Proof.
  unfold linked, finish. intros Hc.
  destruct (num_gt _ _); eexists; [by apply chain_snoc|done].
Qed.

(** Whatever the arithmetic, a returned list is a chain from [0.0]. *)
Lemma segment_chain fuel shots segs :
  segment max_duration fuel shots = Some segs →
  ∃ b, chain num_zero segs b.
Proof.
  unfold segment. destruct shots as [|shot rest].
  - intros [= <-]. eexists. constructor.
  - destruct (for_shots _ _ _ _) as [st|] eqn:E; [|done].
    intros [= <-]. apply finish_chain.
    eapply for_shots_linked; [|done]. constructor.
Qed.

(** Seamlessness does not depend on the arithmetic. *)
Lemma segment_seamless_any_carrier fuel shots segs :
  segment max_duration fuel shots = Some segs →
  starts_at num_zero segs ∧ seamless segs.
Proof.
  intros [b Hc]%segment_chain.
  split; [by eapply chain_starts_at|by eapply chain_seamless].
Qed.

End Structure.

(** ** The segmenter in exact arithmetic *)

Lemma Qgt_bool_true (a b : Q) : Qgt_bool a b = true ↔ (b < a)%Q.
Proof. unfold Qgt_bool, Qlt. apply Z.ltb_lt. Qed.

Lemma Qgt_bool_false (a b : Q) : Qgt_bool a b = false ↔ (a <= b)%Q.
Proof. unfold Qgt_bool, Qle. apply Z.ltb_ge. Qed.

Lemma Qle_bool_false (a b : Q) : Qle_bool a b = false ↔ (b < a)%Q.
Proof.
  rewrite <- Qgt_bool_true. unfold Qle_bool, Qgt_bool.
  rewrite Z.leb_antisym. by destruct (_ <? _)%Z.
Qed.

(** Case analysis on one test of the source, leaving its meaning in [Q]. *)
Ltac qtest c E :=
  destruct c eqn:E;
  [ first [ apply Qgt_bool_true in E | apply Qle_bool_iff in E ]
  | first [ apply Qgt_bool_false in E | apply Qle_bool_false in E ] ].

Ltac qnum :=
  cbn [num_zero num_add num_sub num_le num_gt Q_number hard_split] in *.

Lemma sum_Q_app l l' : (sum_Q (l ++ l') == sum_Q l + sum_Q l')%Q.
Proof. induction l as [|x l IH]; simpl; [lra|]. rewrite IH. lra. Qed.

Lemma chain_sum (a b : Q) segs :
  chain a segs b → (sum_Q (seg_duration <$> segs) == b - a)%Q.
Proof.
  induction 1 as [|a m segs b _ IH]; simpl; [lra|].
  rewrite IH. unfold seg_duration. simpl. lra.
Qed.

Lemma inject_nat_S (n : nat) :
  (inject_Z (Z.of_nat (S n)) == inject_Z (Z.of_nat n) + 1)%Q.
Proof.
  rewrite Nat2Z.inj_succ. unfold Z.succ. rewrite inject_Z_plus.
  change (inject_Z 1) with 1%Q. lra.
Qed.

Section Rational.
Variable max_duration : Q.
Hypothesis max_positive : (0 < max_duration)%Q.
Local Open Scope Q_scope.

Lemma iterations_enough d :
  d <= inject_Z (Z.of_nat (iterations max_duration d)) * max_duration
       + max_duration.
Proof.
  unfold iterations.
  assert (d == d / max_duration * max_duration) as Hd.
  { field. intros Hz. rewrite Hz in max_positive. lra. }
  set (q := d / max_duration) in *.
  assert (q <= inject_Z (Z.of_nat (Z.to_nat (Qceiling q)))) as Hc.
  { eapply Qle_trans; [apply Qle_ceiling|]. rewrite <- Zle_Qle. lia. }
  set (n := inject_Z _) in *.
  assert (q * max_duration <= n * max_duration)
    by (apply Qmult_le_compat_r; lra).
  lra.
Qed.

Lemma hard_split_total fuel segs a r :
  r <= inject_Z (Z.of_nat fuel) * max_duration + max_duration →
  is_Some (hard_split max_duration fuel segs a r).
Proof.
  revert segs a r. induction fuel as [|fuel IH]; intros segs a r Hr; simpl.
  - qtest (Qgt_bool r max_duration) E; [|done].
    change (inject_Z (Z.of_nat 0)) with 0 in Hr. lra.
  - qtest (Qgt_bool r max_duration) E; [|done].
    apply IH. rewrite inject_nat_S in Hr. lra.
Qed.

Lemma step_total fuel st shot :
  (iterations max_duration (duration shot) ≤ fuel)%nat →
  is_Some (step max_duration fuel st shot).
Proof.
  intros Hf. unfold step. simpl.
  destruct (Qle_bool _ _); [done|].
  destruct (Qgt_bool (duration shot) _); [|done].
  destruct (hard_split_total (iterations max_duration (duration shot))
              (segments (save_current true st))
              (current_start (save_current true st)) (duration shot)
              (iterations_enough _)) as [[[segs b] r] E].
  rewrite (hard_split_mono _ _ _ _ _ _ _ Hf E).
  destruct (Qgt_bool r 0); done.
Qed.

Lemma for_shots_total fuel shots st :
  (fuel_for max_duration shots ≤ fuel)%nat →
  is_Some (for_shots max_duration fuel st shots).
Proof.
  revert st. induction shots as [|shot rest IH]; intros st Hf; simpl in *.
  - done.
  - destruct (step_total fuel st shot ltac:(lia)) as [st1 ->].
    apply IH. lia.
Qed.

(** For a positive [max_duration] the call returns, whatever the shots. *)
Lemma segment_total shots : ∃ segs, returns max_duration shots segs.
Proof.
  destruct shots as [|shot rest].
  - exists []. by exists 0%nat.
  - destruct (for_shots_total (fuel_for max_duration (shot :: rest))
                (shot :: rest)
                initial ltac:(done)) as [st E].
    exists (finish st).
    apply (segment_returns _ (fuel_for max_duration (shot :: rest))).
    unfold segment. by rewrite E.
Qed.

(** *** The duration bound *)

Lemma within_snoc segs a d :
  Forall (within max_duration) segs → d <= max_duration →
  Forall (within max_duration) (segs ++ [(a, a + d)]).
Proof.
  intros Hs Hd. apply Forall_app. split; [done|].
  repeat constructor. unfold within, seg_duration. simpl. lra.
Qed.

Lemma hard_split_bounded fuel segs a r segs' a' r' :
  Forall (within max_duration) segs →
  hard_split max_duration fuel segs a r = Some (segs', a', r') →
  Forall (within max_duration) segs' ∧ r' <= max_duration.
Proof.
  revert segs a r. induction fuel as [|fuel IH]; intros segs a r Hs; qnum.
  - qtest (Qgt_bool r max_duration) E; [done|]. by intros [= <- <- <-].
  - qtest (Qgt_bool r max_duration) E; [|by intros [= <- <- <-]].
    apply IH. apply within_snoc; [done|lra].
Qed.

Lemma save_current_bounded reset st :
  bounded max_duration st → bounded max_duration (save_current reset st).
Proof.
  intros [Hs Ha]. unfold save_current. qnum.
  destruct (Qgt_bool _ 0); [|done]. split; simpl.
  - by apply within_snoc.
  - destruct reset; lra.
Qed.

Lemma step_bounded fuel st shot st' :
  bounded max_duration st → step max_duration fuel st shot = Some st' →
  bounded max_duration st'.
Proof.
  intros Hb. unfold step. qnum.
  qtest (Qle_bool (accumulated_duration st + duration shot) max_duration) E1.
  { intros [= <-]. destruct Hb. by split. }
  qtest (Qgt_bool (duration shot) max_duration) E2.
  - destruct (save_current_bounded true st Hb) as [Hs _].
    destruct (hard_split _ _ _ _ _) as [[[segs b] r]|] eqn:E; [|done].
    destruct (hard_split_bounded _ _ _ _ _ _ _ Hs E) as [Hs' Hr].
    destruct (Qgt_bool r 0); intros [= <-]; (split; simpl; [|lra]);
      [by apply within_snoc|done].
  - intros [= <-]. destruct (save_current_bounded false st Hb) as [Hs _].
    by split.
Qed.

Lemma for_shots_bounded fuel shots st st' :
  bounded max_duration st →
  for_shots max_duration fuel st shots = Some st' →
  bounded max_duration st'.
Proof.
  revert st. induction shots as [|shot rest IH]; intros st Hb; simpl.
  - by intros [= <-].
  - destruct (step _ _ _ _) as [st1|] eqn:E; [|done].
    apply IH. by eapply step_bounded.
Qed.

Lemma segment_bounded fuel shots segs :
  segment max_duration fuel shots = Some segs → Forall (within max_duration) segs.
Proof.
  unfold segment. destruct shots as [|shot rest]; [by intros [= <-]|].
  destruct (for_shots _ _ _ _) as [st|] eqn:E; [|done]. intros [= <-].
  assert (bounded max_duration initial) as Hi
    by (split; [constructor|simpl; lra]).
  destruct (for_shots_bounded _ _ _ _ Hi E) as [Hs Ha].
  unfold finish. qnum. destruct (Qgt_bool _ 0); [|done]. by apply within_snoc.
Qed.

(** *** Conservation of duration *)

Lemma total_duration_cons shot rest :
  total_duration (shot :: rest) = duration shot + total_duration rest.
Proof. reflexivity. Qed.

Lemma total_duration_positive shots :
  Forall (λ shot, 0 < duration shot) shots → shots ≠ [] →
  0 < total_duration shots.
Proof.
  induction 1 as [|shot rest Hd _ IH]; [done|]. intros _.
  rewrite total_duration_cons. destruct rest as [|shot' rest].
  - change (total_duration []) with 0. lra.
  - specialize (IH ltac:(done)). lra.
Qed.

Lemma hard_split_conserved fuel segs a r segs' a' r' :
  0 < r →
  hard_split max_duration fuel segs a r = Some (segs', a', r') →
  a' + r' == a + r ∧ 0 < r'.
Proof.
  revert segs a r. induction fuel as [|fuel IH]; intros segs a r Hr; qnum.
  - qtest (Qgt_bool r max_duration) E; [done|].
    intros [= <- <- <-]. split; [lra|done].
  - qtest (Qgt_bool r max_duration) E.
    + intros Hs. apply IH in Hs; [|lra]. destruct Hs. split; [lra|done].
    + intros [= <- <- <-]. split; [lra|done].
Qed.

Lemma save_current_conserved reset total st :
  conserved total st →
  linked (save_current reset st) ∧
  current_start (save_current reset st) == total.
Proof.
  intros (Hl & Ha & Ht). split; [by apply save_current_linked|].
  unfold save_current. qnum.
  qtest (Qgt_bool (accumulated_duration st) 0) E; simpl; lra.
Qed.

Lemma step_conserved fuel total st shot st' :
  conserved total st → 0 <= duration shot →
  step max_duration fuel st shot = Some st' →
  conserved (total + duration shot) st'.
Proof.
  intros Hc Hd Hs. split; [destruct Hc; by eapply step_linked|].
  revert Hs. unfold step. qnum.
  qtest (Qle_bool (accumulated_duration st + duration shot) max_duration) E1.
  { intros [= <-]. destruct Hc as (_ & Ha & Ht). simpl. lra. }
  qtest (Qgt_bool (duration shot) max_duration) E2.
  - destruct (save_current_conserved true _ _ Hc) as [_ Ht].
    destruct (hard_split _ _ _ _ _) as [[[segs b] r]|] eqn:E; [|done].
    apply hard_split_conserved in E as [Hbr Hr]; [|lra].
    qtest (Qgt_bool r 0) E3; intros [= <-]; simpl; lra.
  - intros [= <-]. destruct (save_current_conserved false _ _ Hc) as [_ Ht].
    simpl. lra.
Qed.

Lemma for_shots_conserved fuel shots total st st' :
  conserved total st → Forall (λ shot, 0 <= duration shot) shots →
  for_shots max_duration fuel st shots = Some st' →
  conserved (total + total_duration shots) st'.
Proof.
  revert total st.
  induction shots as [|shot rest IH]; intros total st Hc Hd; simpl.
  - intros [= <-]. destruct Hc as (? & ? & ?).
    repeat split; [done..|]. change (total_duration []) with 0. lra.
  - destruct (step _ _ _ _) as [st1|] eqn:E; [|done]. intros Hr.
    inversion Hd as [|? ? Hd1 Hd2]; subst.
    destruct (IH _ _ (step_conserved _ _ _ _ _ Hc Hd1 E) Hd2 Hr)
      as (? & ? & Ht).
    repeat split; [done..|]. rewrite total_duration_cons. lra.
Qed.

(** The returned list is a chain from [0] to the total duration. *)
Lemma segment_conserved fuel shots segs :
  Forall (λ shot, 0 <= duration shot) shots →
  segment max_duration fuel shots = Some segs →
  ∃ e, chain 0 segs e ∧ e == total_duration shots.
Proof.
  intros Hd. unfold segment. destruct shots as [|shot rest].
  { intros [= <-]. exists 0. split; [constructor|done]. }
  destruct (for_shots _ _ _ _) as [st|] eqn:E; [|done]. intros [= <-].
  assert (conserved 0 initial) as Hi.
  { repeat split; [constructor|simpl; lra..]. }
  destruct (for_shots_conserved _ _ _ _ _ Hi Hd E) as (Hl & Ha & Ht).
  unfold finish. qnum.
  qtest (Qgt_bool (accumulated_duration st) 0) E1.
  - eexists. split; [by apply chain_snoc|]. lra.
  - exists (current_start st). split; [done|]. lra.
Qed.

Lemma covering_positive t shots :
  covering t shots → Forall (λ shot, 0 < duration shot) shots.
Proof.
  revert t. induction shots as [|shot rest IH]; intros t; simpl.
  - constructor.
  - intros (_ & _ & Hd & Hr). constructor; [done|]. by eapply IH.
Qed.

Lemma covering_total t shots shot :
  covering t shots → last shots = Some shot →
  t + total_duration shots == end_time shot.
Proof.
  revert t. induction shots as [|shot1 rest IH]; intros t; [done|].
  intros (Hs & Hd & _ & Hr) Hl. rewrite total_duration_cons.
  destruct rest as [|shot2 rest].
  - injection Hl as <-. change (total_duration []) with 0. lra.
  - specialize (IH _ Hr Hl). lra.
Qed.

(** *** A single oversize shot *)




End Rational.

(** ** The claims about the segmenter *)

Section SegmenterProperties.
Local Open Scope Q_scope.

(** C1. Seamlessness. For a positive [max_duration] and a non-empty shot
    list, [segment] returns a list whose first segment, when there is one,
    starts at [0] whatever the [start_time] of the first shot, and in which
    every segment starts exactly where its predecessor ends.  The equalities
    are identities of stored values ([segment_chain] gives them over every
    carrier, binary64 floats included). *)
Theorem segment_seamless (max_duration : Q) (shots : list (Shot Q)) :
  0 < max_duration → shots ≠ [] →
  ∃ segs, returns max_duration shots segs ∧
          starts_at 0 segs ∧ seamless segs.
Proof.
  intros Hmax _.
  destruct (segment_total max_duration Hmax shots) as [segs Hr].
  exists segs. split; [done|].
  destruct Hr as [fuel Hr]. specialize (Hr fuel ltac:(done)).
  apply segment_chain in Hr as [b Hc].
  split; [by eapply chain_starts_at|by eapply chain_seamless].
Qed.

(** C2. Conservation. For a positive [max_duration] and a non-empty shot
    list that covers the video from [0] without gaps, each shot of positive
    duration, the durations of the returned segments add up to the durations
    of the shots, and the last segment ends at the [end_time] of the last
    shot. *)
Theorem segment_conservation (max_duration : Q) (shots : list (Shot Q))
    (last_shot : Shot Q) :
  0 < max_duration → covering 0 shots → last shots = Some last_shot →
  ∃ segs, returns max_duration shots segs ∧
          sum_Q (seg_duration <$> segs) == total_duration shots ∧
          ∃ s, last segs = Some s ∧ s.2 == end_time last_shot.
Proof.
  intros Hmax Hcov Hlast.
  destruct (segment_total max_duration Hmax shots) as [segs Hr].
  exists segs. split; [done|].
  destruct Hr as [fuel Hr]. specialize (Hr fuel ltac:(done)).
  pose proof (covering_positive _ _ Hcov) as Hpos.
  apply segment_conserved in Hr as (e & Hc & He); [|done|].
  2:{ eapply Forall_impl; [done|]. simpl. intros ? ?. lra. }
  pose proof (covering_total _ _ _ Hcov Hlast) as Htot.
  split; [rewrite (chain_sum _ _ _ Hc); lra|].
  assert (0 < total_duration shots) as Hpos'.
  { apply total_duration_positive; [done|]. by intros ->. }
  destruct (last segs) as [s|] eqn:El.
  - exists s. split; [done|]. rewrite (chain_last _ _ _ _ Hc El). lra.
  - apply last_None in El as ->. inversion Hc; subst. lra.
Qed.

(** C3. Bound. For a positive [max_duration] and any shot list, every
    returned segment [(start, end)] has [end - start <= max_duration]. *)
Theorem segment_bound (max_duration : Q) (shots : list (Shot Q)) :
  0 < max_duration →
  ∃ segs, returns max_duration shots segs ∧
          Forall (λ s, s.2 - s.1 <= max_duration) segs.
Proof.
  intros Hmax.
  destruct (segment_total max_duration Hmax shots) as [segs Hr].
  exists segs. split; [done|].
  destruct Hr as [fuel Hr]. specialize (Hr fuel ltac:(done)).
  by apply segment_bounded in Hr.
Qed.


(** C5. End-to-end scenario. With [max_duration = 30], five shots of
    durations 10, 15, 8, 40 and 5 (contiguous from 0, whatever their frame
    numbers) are returned as the five segments (0,25), (25,33), (33,63),
    (63,73), (73,78). *)
Theorem segment_scenario (shots : list (Shot Q)) :
  duration <$> shots = [10; 15; 8; 40; 5] →
  returns 30 shots [(0, 25); (25, 33); (33, 63); (63, 73); (73, 78)].
Proof.
  intros Hd.
  do 5 (destruct shots as [|[? ? ? ? ?] shots]; [done|]).
  destruct shots; [|done]. simplify_eq/=.
  apply (segment_returns _ 1). vm_compute. reflexivity.
Qed.

End SegmenterProperties.

(** ** The workers *)

Section WorkerProperties.
Variable subprocess_run : ffmpeg → result CompletedProcess.
Variable open_rb : string → result string.
Variable put_object : string → string → result Z.
Variable bucket_name : string.

Lemma cut_single_segment_cases video_path start end_ output_path index :
  let cmd := {| ss := start; t := (end_ - start)%Q;
                input := video_path; output := output_path |} in
  ∃ c,
    _cut_single_segment subprocess_run
      (video_path, start, end_, output_path, index) = Return c ∧
    cut_index c = index ∧ cut_start c = start ∧ cut_end c = end_ ∧
    ((cut_status c = "success" ∧ cut_path c = Some output_path ∧
      ∃ p, subprocess_run cmd = Return p ∧ returncode p = 0%Z) ∨
     (cut_status c = "failed" ∧ cut_path c = None ∧
      is_Some (cut_error c) ∧
      ¬ ∃ p, subprocess_run cmd = Return p ∧ returncode p = 0%Z)).
Proof.
  intros cmd. unfold _cut_single_segment. fold cmd.
  destruct (subprocess_run cmd) as [p|[msg|msg]] eqn:E; simpl.
  - destruct (returncode p =? 0)%Z eqn:Erc; eexists; (split; [done|]); simpl.
    + repeat split. left. repeat split. exists p. split; [done|].
      by apply Z.eqb_eq.
    + repeat split. right. repeat split; [done|].
      intros (p' & [= <-] & Hrc). apply Z.eqb_neq in Erc. done.
  - eexists. split; [done|]. simpl. repeat split. right.
    repeat split; [done|]. by intros (p' & [=] & _).
  - eexists. split; [done|]. simpl. repeat split. right.
    repeat split; [done|]. by intros (p' & [=] & _).
Qed.

Lemma upload_single_segment_cases local_path task_id index start end_ :
  let upload :=
    upload_to_oss_from_local open_rb put_object bucket_name
      local_path task_id in
  ∃ u,
    _upload_single_segment open_rb put_object bucket_name
      (local_path, task_id, index, start, end_) = Return u ∧
    ((∃ oss_url, upload = Return oss_url ∧
        u = upload_success index start end_ task_id oss_url) ∨
     (∃ e, upload = Raise e ∧
        u = upload_failed index start end_ task_id (str_exn e))).
Proof.
  intros upload. unfold _upload_single_segment. fold upload.
  destruct upload as [oss_url|e]; simpl; eexists; (split; [done|]).
  - left. by exists oss_url.
  - right. by exists e.
Qed.

Lemma upload_success_status index start end_ task_id oss_url :
  upload_success index start end_ task_id oss_url !! "status"
  = Some (VStr "success").
Proof. reflexivity. Qed.

Lemma upload_failed_status index start end_ task_id error :
  upload_failed index start end_ task_id error !! "status"
  = Some (VStr "failed").
Proof. reflexivity. Qed.

Lemma upload_success_index index start end_ task_id oss_url :
  index_of (upload_success index start end_ task_id oss_url) = index.
Proof. reflexivity. Qed.

Lemma upload_failed_index index start end_ task_id error :
  index_of (upload_failed index start end_ task_id error) = index.
Proof. reflexivity. Qed.

Lemma upload_success_fields index start end_ task_id oss_url :
  dom (delete "status" (upload_success index start end_ task_id oss_url))
  = {[ "index"; "start"; "end"; "duration"; "task_id"; "oss_url" ]}.
Proof. reflexivity. Qed.

End WorkerProperties.

(** ** The pipeline *)

Lemma strictly_sorted (l : list Z) :
  StronglySorted Z.le l → NoDup l → StronglySorted Z.lt l.
Proof.
  induction 1 as [|x l Hs IH Hx]; intros Hn; constructor;
    apply NoDup_cons in Hn as [Hx' Hn]; [by apply IH|].
  rewrite Forall_forall in Hx |- *. intros y Hy.
  specialize (Hx y Hy). assert (x ≠ y) by (by intros ->). lia.
Qed.

Section PipelineProperties.
Variable subprocess_run : ffmpeg → result CompletedProcess.
Variable open_rb : string → result string.
Variable put_object : string → string → result Z.
Variable bucket_name : string.
Variable temp_dir : string.
Variable as_completed : ∀ A, list A → list A.

(** Every future submitted is yielded once, in some order. *)
Hypothesis as_completed_permutation :
  ∀ A (l : list A), as_completed A l ≡ₚ l.

Local Abbreviation cut := (_cut_single_segment subprocess_run).
Local Abbreviation upload :=
  (_upload_single_segment open_rb put_object bucket_name).
Local Abbreviation cut_result := (cut_outcome subprocess_run).
Local Abbreviation upload_result :=
  (upload_outcome open_rb put_object bucket_name).

Lemma cut_outcome_eq args : cut args = Return (cut_result args).
Proof.
  destruct args as [[[[video_path start] end_] output_path] index].
  destruct (cut_single_segment_cases subprocess_run video_path start end_
              output_path index) as (c & E & _).
  unfold cut_outcome. by rewrite E.
Qed.

Lemma upload_outcome_eq args :
  upload args = Return (upload_result args).
Proof.
  destruct args as [[[[local_path task_id] index] start] end_].
  destruct (upload_single_segment_cases open_rb put_object bucket_name
              local_path task_id index start end_) as (u & E & _).
  unfold upload_outcome. by rewrite E.
Qed.

Lemma cut_outcome_index video_path idx seg :
  cut_index (cut_result (cut_task temp_dir video_path idx seg))
  = (Z.of_nat idx + 1)%Z.
Proof.
  destruct seg as [start end_]. unfold cut_task.
  destruct (cut_single_segment_cases subprocess_run video_path start end_
              (path_join temp_dir
                 ("segment_" +:+ pretty (Z.of_nat idx + 1)%Z +:+ ".mp4"))
              (Z.of_nat idx + 1)) as (c & E & Hi & _).
  unfold cut_outcome. by rewrite E.
Qed.

Lemma upload_outcome_index name c :
  index_of (upload_result (upload_task name c)) = cut_index c.
Proof.
  unfold upload_task.
  destruct (upload_single_segment_cases open_rb put_object bucket_name
              (cut_path c) (name +:+ "-" +:+ pretty (cut_index c))
              (cut_index c) (cut_start c) (cut_end c))
    as (u & E & [(url & _ & ->)|(e & _ & ->)]);
    unfold upload_outcome; by rewrite E.
Qed.

Lemma index_of_delete_status (r : dict) :
  index_of (delete "status" r) = index_of r.
Proof. unfold index_of. by rewrite lookup_delete_ne. Qed.

Lemma collect_Return {A} (l : list A) : collect (Return <$> l) = Return l.
Proof.
  induction l as [|x l IH]; [done|].
  rewrite fmap_cons. cbn [collect]. by rewrite IH.
Qed.

Lemma collect_as_completed {A B} (f : A → result B) (g : A → B) (l : list A) :
  (∀ x, f x = Return (g x)) →
  ∃ ys, collect (as_completed _ (f <$> l)) = Return ys ∧ ys ≡ₚ g <$> l.
Proof.
  intros Hf.
  pose proof (as_completed_permutation _ (f <$> l)) as Hp.
  set (rs := as_completed _ (f <$> l)) in *. clearbody rs.
  assert (f <$> l = map Return (g <$> l)) as E.
  { change (map Return (g <$> l)) with (Return <$> (g <$> l)).
    rewrite <- list_fmap_compose. apply list_fmap_ext. intros _ x _. apply Hf. }
  rewrite E in Hp. apply Permutation_map_inv in Hp as (ys & -> & Hp).
  exists ys. split; [|by symmetry].
  change (map Return ys) with (Return <$> ys). apply collect_Return.
Qed.

(** The pipeline as a function of the two completion orders. *)
Lemma cut_and_upload_returns video_path segments name :
  ∃ cuts uploads,
    cuts ≡ₚ cut_result <$> cut_tasks temp_dir video_path segments ∧
    uploads ≡ₚ
      upload_result <$>
        (upload_task name <$> filter (λ r, cut_status r = "success") cuts) ∧
    cut_and_upload subprocess_run open_rb put_object bucket_name temp_dir
      as_completed video_path segments name
    = Return (delete "status" <$>
                merge_sort index_le
                  (filter (λ r : dict, r !! "status" = Some (VStr "success"))
                     uploads)).
Proof.
  unfold cut_and_upload.
  destruct (collect_as_completed cut cut_result
              (cut_tasks temp_dir video_path segments) cut_outcome_eq)
    as (cuts & -> & Hc).
  exists cuts. simpl.
  destruct (collect_as_completed upload upload_result
              (upload_task name <$>
                 filter (λ r, cut_status r = "success") cuts)
              upload_outcome_eq)
    as (uploads & -> & Hu).
  by exists uploads.
Qed.

Lemma cut_tasks_indices video_path segments :
  NoDup (cut_index <$>
           (cut_result <$> cut_tasks temp_dir video_path segments)).
Proof.
  unfold cut_tasks. rewrite <- list_fmap_compose, fmap_imap.
  rewrite (imap_ext _ (λ j _, (Z.of_nat j + 1)%Z)).
  - rewrite imap_seq_0. apply NoDup_fmap_2; [|apply NoDup_seq].
    intros j j' Hj. lia.
  - intros j seg _. apply cut_outcome_index.
Qed.

Section Run.
Variables (video_path name : string) (segments : list (Q * Q)).
Variables (cuts : list CutResult) (uploads : list dict).
Hypothesis cuts_completed :
  cuts ≡ₚ cut_result <$> cut_tasks temp_dir video_path segments.
Hypothesis uploads_completed :
  uploads ≡ₚ
    upload_result <$>
      (upload_task name <$> filter (λ r, cut_status r = "success") cuts).

Lemma uploads_indices : NoDup (index_of <$> uploads).
Proof.
  rewrite uploads_completed, <- !list_fmap_compose.
  rewrite (list_fmap_ext _ cut_index).
  - eapply sublist_NoDup; [|apply fmap_sublist, sublist_filter].
    rewrite cuts_completed. apply cut_tasks_indices.
  - intros _ c _. apply upload_outcome_index.
Qed.

Lemma uploads_membership (u : dict) :
  u ∈ uploads ↔
  ∃ idx seg,
    segments !! idx = Some seg ∧
    let c := cut_result (cut_task temp_dir video_path idx seg) in
    cut_status c = "success" ∧ u = upload_result (upload_task name c).
Proof.
  rewrite uploads_completed, list_elem_of_fmap. split.
  - intros (task & -> & Ht). apply list_elem_of_fmap in Ht as (c & -> & Hc).
    apply list_elem_of_filter in Hc as [Hs Hc]. rewrite cuts_completed in Hc.
    apply list_elem_of_fmap in Hc as (ct & -> & Hct).
    apply elem_of_lookup_imap in Hct as (idx & seg & -> & Hseg).
    by exists idx, seg.
  - intros (idx & seg & Hseg & Hs & ->). eexists. split; [done|].
    apply list_elem_of_fmap_2, list_elem_of_filter. split; [done|].
    rewrite cuts_completed.
    by apply list_elem_of_fmap_2, elem_of_lookup_imap_2.
Qed.

End Run.

End PipelineProperties.

#[local] Instance index_le_transitive : Transitive index_le.
Proof. intros r1 r2 r3. unfold index_le. lia. Qed.

#[local] Instance index_le_total : Total index_le.
Proof. intros r1 r2. unfold index_le. lia. Qed.

Section PipelineClaims.

(** C6. Whatever the cuts and uploads that fail and whatever the order in
    which the futures complete, [cut_and_upload] returns a list that is
    strictly increasing by index, that holds exactly the indices whose cut
    and whose upload both reported success, and whose entries have the six
    keys index, start, end, duration, task_id and oss_url, the status key
    being removed. *)
Theorem cut_and_upload_result
    (subprocess_run : ffmpeg → result CompletedProcess)
    (open_rb : string → result string)
    (put_object : string → string → result Z)
    (bucket_name temp_dir : string)
    (as_completed : ∀ A, list A → list A)
    (video_path : string) (segments : list (Q * Q)) (name : string) :
  (∀ A (l : list A), as_completed A l ≡ₚ l) →
  ∃ final,
    cut_and_upload subprocess_run open_rb put_object bucket_name temp_dir
      as_completed video_path segments name = Return final ∧
    StronglySorted Z.lt (index_of <$> final) ∧
    (∀ i, i ∈ index_of <$> final ↔
          both_reported_success subprocess_run open_rb put_object
            bucket_name temp_dir video_path segments name i) ∧
    Forall (λ r : dict,
              dom r = {[ "index"; "start"; "end"; "duration"; "task_id";
                         "oss_url" ]}) final.
Proof.
  intros Hperm.
  destruct (cut_and_upload_returns subprocess_run open_rb put_object
              bucket_name temp_dir as_completed Hperm video_path segments
              name) as (cuts & uploads & Hc & Hu & ->).
  eexists. split; [done|].
  set (ok := λ r : dict, r !! "status" = Some (VStr "success")).
  set (sorted := merge_sort index_le (filter ok uploads)).
  assert (index_of <$> (delete "status" <$> sorted) = index_of <$> sorted)
    as Hidx.
  { rewrite <- list_fmap_compose. apply list_fmap_ext.
    intros _ r _. apply index_of_delete_status. }
  assert (∀ r, r ∈ sorted ↔ ok r ∧ r ∈ uploads) as Hin.
  { intros r. unfold sorted. rewrite merge_sort_Permutation.
    apply list_elem_of_filter. }
  pose proof (uploads_membership subprocess_run open_rb put_object
                bucket_name temp_dir video_path name segments cuts uploads
                Hc Hu) as Hmem.
  split; [|split].
  - rewrite Hidx. apply strictly_sorted.
    + apply (StronglySorted_fmap _ index_le); [done|].
      apply StronglySorted_merge_sort; apply _.
    + unfold sorted. rewrite merge_sort_Permutation.
      eapply sublist_NoDup; [|apply fmap_sublist, sublist_filter].
      by eapply (uploads_indices subprocess_run open_rb put_object
                   bucket_name temp_dir video_path name segments).
  - intros i. rewrite Hidx, list_elem_of_fmap. split.
    + intros (r & -> & Hr). apply Hin in Hr as [Hok Hr].
      apply Hmem in Hr as (idx & seg & Hseg & Hs & ->).
      rewrite upload_outcome_index, cut_outcome_index.
      exists idx, seg. do 2 eexists.
      split; [done|]. split; [done|]. split; [apply cut_outcome_eq|].
      split; [done|]. split; [apply upload_outcome_eq|done].
    + intros (idx & seg & c & u & Hseg & -> & Ec & Hs & Eu & Hok).
      rewrite cut_outcome_eq in Ec. injection Ec as <-.
      rewrite upload_outcome_eq in Eu. injection Eu as <-.
      eexists. split; [|apply Hin; split; [done|]].
      * by rewrite upload_outcome_index, cut_outcome_index.
      * apply Hmem. by exists idx, seg.
  - apply Forall_fmap, Forall_forall. intros r Hr. simpl.
    apply Hin in Hr as [Hok Hr].
    apply Hmem in Hr as (idx & seg & _ & _ & ->).
    revert Hok. unfold ok, upload_outcome, upload_task.
    destruct (upload_single_segment_cases open_rb put_object bucket_name
                (cut_path (cut_outcome subprocess_run
                             (cut_task temp_dir video_path idx seg)))
                (name +:+ "-" +:+
                   pretty (cut_index (cut_outcome subprocess_run
                             (cut_task temp_dir video_path idx seg))))
                (cut_index (cut_outcome subprocess_run
                             (cut_task temp_dir video_path idx seg)))
                (cut_start (cut_outcome subprocess_run
                             (cut_task temp_dir video_path idx seg)))
                (cut_end (cut_outcome subprocess_run
                             (cut_task temp_dir video_path idx seg))))
      as (u & -> & [(url & _ & ->)|(e & _ & ->)]).
    + intros _. apply upload_success_fields.
    + by rewrite upload_failed_status.
Qed.

End PipelineClaims.

(** ** The claims about the workers and the pool size *)

Section WorkerClaims.

(** C7, as amended. A cut task is reported as success exactly when
    [subprocess.run] comes back with return code 0; the produced file is
    not looked at.  In every other case (non-zero return code, timeout, any
    other exception) the segment is marked failed with an error message, and
    the worker returns: no exception leaves it. *)
Theorem cut_single_segment_outcome
    (subprocess_run : ffmpeg → result CompletedProcess)
    (video_path : string) (start end_ : Q) (output_path : string)
    (index : Z) :
  ∃ c,
    _cut_single_segment subprocess_run
      (video_path, start, end_, output_path, index) = Return c ∧
    (cut_status c = "success" ↔
     ∃ p, subprocess_run {| ss := start; t := (end_ - start)%Q;
                            input := video_path; output := output_path |}
            = Return p ∧ returncode p = 0%Z) ∧
    (cut_status c ≠ "success" →
     cut_status c = "failed" ∧ cut_path c = None ∧ is_Some (cut_error c)).
Proof.
  destruct (cut_single_segment_cases subprocess_run video_path start end_
              output_path index)
    as (c & E & _ & _ & _ & [(Hs & _ & Hp)|(Hs & Hpath & He & Hp)]);
    exists c; (split; [done|]); rewrite Hs.
  - split; [done|]. by intros [].
  - split; [split; [done|by intros ?%Hp]|done].
Qed.

(** C7 as stated fails: the tool exits with status 0 and leaves an empty
    output file, and the cut is reported as success all the same. *)
Lemma cut_success_with_empty_output :
  ∃ c,
    _cut_single_segment ffmpeg_exits_zero
      ("video.mp4", 0%Q, 10%Q, "/tmp/shotcutter_a/segment_1.mp4", 1%Z)
    = Return c ∧
    cut_status c = "success" ∧
    ¬ claimed_cut_success ffmpeg_exits_zero empty_files
        ("video.mp4", 0%Q, 10%Q, "/tmp/shotcutter_a/segment_1.mp4", 1%Z).
Proof.
  eexists. split; [reflexivity|]. split; [reflexivity|].
  intros (_ & size & [= <-] & Hsize). done.
Qed.

(** C8, the code at the failing input: the store answers 403,
    [upload_to_oss_from_local] returns the string ["403"], and the upload is
    reported as success with that string as its [oss_url]. *)
Lemma upload_status_403_reported_success :
  upload_to_oss_from_local readable put_object_403 "bucket"
    (Some "/tmp/shotcutter_a/segment_1.mp4") "clip-1" = Return "403" ∧
  ∃ u,
    _upload_single_segment readable put_object_403 "bucket"
      (Some "/tmp/shotcutter_a/segment_1.mp4", "clip-1", 1%Z, 0%Q, 10%Q)
    = Return u ∧
    u !! "status" = Some (VStr "success") ∧
    u !! "oss_url" = Some (VStr "403").
Proof.
  split; [reflexivity|]. eexists. split; [reflexivity|]. split; reflexivity.
Qed.

(** C9 as stated fails: with 8 logical CPUs the code computes
    [int(4.8) = 4] where [round(4.8) = 5]. *)
Lemma get_max_workers_truncates :
  get_max_workers (Some 8%Z) None ≠ claimed_max_workers 8.
Proof. by vm_compute. Qed.

Lemma int_of_float_fraction (n : Z) :
  (0 ≤ n)%Z → int_of_float (inject_Z n * 0.6) = (3 * n / 5)%Z.
Proof.
  intros Hn. unfold int_of_float.
  assert (Qle_bool 0 (inject_Z n * 0.6) = true) as ->.
  { apply Qle_bool_iff. apply Qmult_le_0_compat; [|done].
    change 0%Q with (inject_Z 0). by rewrite <- Zle_Qle. }
  unfold Qfloor, Qmult, inject_Z. simpl.
  change (Z.pos (1 * 10)) with (5 * 2)%Z.
  replace (n * 6)%Z with (3 * n * 2)%Z by lia.
  by rewrite Z.div_mul_cancel_r.
Qed.

(** C9, as amended. Without an override (variable unset or empty) the pool
    size is [clamp(floor(n * 0.6), 2, 48)], the product being truncated by
    [int] and not rounded, where [n] is the logical CPU count, or 4 when it
    is unknown: at least 2, at most 48, and [floor(n * 0.6)], that is
    [3 n div 5], whenever that value lies in [2, 48]. *)
Theorem get_max_workers_default (cpu_count : option Z) :
  let n := int_or cpu_count 4 in
  let w := get_max_workers cpu_count None in
  get_max_workers cpu_count (Some "") = w ∧
  w = Z.max 2 (Z.min 48 (3 * n / 5)) ∧
  (2 ≤ w ≤ 48)%Z ∧
  ((2 ≤ 3 * n / 5 ≤ 48)%Z → w = (3 * n / 5)%Z).
Proof.
  intros n w. split; [done|].
  assert (w = Z.max 2 (Z.min 48 (3 * n / 5))) as Hw.
  { unfold w, get_max_workers. fold n.
    destruct (decide (0 ≤ n)%Z) as [Hn|Hn].
    - by rewrite int_of_float_fraction.
    - unfold int_of_float.
      assert (inject_Z n < 0)%Q as Hneg.
      { change 0%Q with (inject_Z 0). rewrite <- Zlt_Qlt. lia. }
      assert (Qle_bool 0 (inject_Z n * 0.6) = false) as ->
        by (apply Qle_bool_false; lra).
      assert (Qceiling (inject_Z n * 0.6) ≤ Qceiling (inject_Z 0))%Z as Hc.
      { apply Qceiling_resp_le. change (inject_Z 0) with 0%Q. lra. }
      rewrite Qceiling_Z in Hc.
      assert (3 * n / 5 < 0)%Z by (apply Z.div_lt_upper_bound; lia).
      lia. }
  split; [done|]. split; lia.
Qed.

End WorkerClaims.

(** ** Decimal numerals are read back by [int] *)

Section Numerals.










End Numerals.

Section OverrideClaim.


End OverrideClaim.

(** ** Instances *)

Section Witnesses.
Local Open Scope Q_scope.

Lemma segment_seamless_witness :
  ∃ segs, returns 30 late_shots segs ∧ starts_at 0 segs ∧ seamless segs.
Proof. apply segment_seamless; [reflexivity|discriminate]. Defined.

Lemma segment_conservation_witness :
  ∃ segs, returns 30 scenario_shots segs ∧
          sum_Q (seg_duration <$> segs) == total_duration scenario_shots ∧
          ∃ s, last segs = Some s ∧ s.2 == 78.
Proof.
  apply (segment_conservation 30 scenario_shots
           {| start_frame := 1825; end_frame := 1950;
              start_time := 73; end_time := 78; duration := 5 |});
    [reflexivity|simpl; repeat split; reflexivity|reflexivity].
Defined.

Lemma segment_bound_witness :
  ∃ segs, returns 30 scenario_shots segs ∧
          Forall (λ s, s.2 - s.1 <= 30) segs.
Proof. apply segment_bound. reflexivity. Defined.


Lemma segment_scenario_witness :
  returns 30 scenario_shots [(0, 25); (25, 33); (33, 63); (63, 73); (73, 78)].
Proof. apply segment_scenario. reflexivity. Defined.

(** The scenario again, computed on binary64 floats. *)
Lemma segment_scenario_binary64 :
  segment 30%float 1
    ((λ d, {| start_frame := 0; end_frame := 0; start_time := 0%float;
              end_time := 0%float; duration := d |})
       <$> [10; 15; 8; 40; 5]%float)
  = Some [(0, 25); (25, 33); (33, 63); (63, 73); (73, 78)]%float.
Proof. vm_compute. reflexivity. Qed.

(** That the call returns is a fact of exact arithmetic: on binary64
    floats a remaining duration of [1e17] seconds is not changed by
    subtracting 1, and the inner loop does not end. *)
Lemma hard_split_binary64_stalls fuel segs a :
  hard_split 1%float fuel segs a 1e17%float = None.
Proof.
  revert segs a. induction fuel as [|fuel IH]; intros segs a; [done|].
  cbn [hard_split]. change (num_gt 1e17%float 1%float) with true. cbv iota.
  change (num_sub 1e17%float 1%float) with 1e17%float. apply IH.
Qed.

(** On binary64 floats [int(cpu_count * 0.6)] is the same integer, for
    every count below 4096. *)
Lemma workers_binary64_exact (n : nat) :
  (n < 4096)%nat →
  workers_binary64 (Z.of_nat n) = int_of_float (inject_Z (Z.of_nat n) * 0.6).
Proof.
  intros Hn.
  assert (forallb (λ n, workers_binary64 (Z.of_nat n) =?
                        int_of_float (inject_Z (Z.of_nat n) * 0.6))%Z
            (seq 0 4096) = true) as Hall by (vm_compute; reflexivity).
  rewrite forallb_forall in Hall.
  apply Z.eqb_eq, Hall, in_seq. lia.
Qed.

Lemma cut_and_upload_result_witness :
  ∃ final,
    cut_and_upload second_cut_fails readable third_put_raises "bucket"
      "/tmp/shotcutter_a" last_first "video.mp4"
      [(0, 25); (25, 33); (33, 63)] "clip" = Return final ∧
    StronglySorted Z.lt (index_of <$> final) ∧
    (∀ i, i ∈ index_of <$> final ↔
          both_reported_success second_cut_fails readable third_put_raises
            "bucket" "/tmp/shotcutter_a" "video.mp4"
            [(0, 25); (25, 33); (33, 63)] "clip" i) ∧
    Forall (λ r : dict,
              dom r = {[ "index"; "start"; "end"; "duration"; "task_id";
                         "oss_url" ]}) final.
Proof.
  apply cut_and_upload_result.
  intros A l. symmetry. apply Permutation_rev.
Defined.

Lemma cut_and_upload_example :
  ∃ final,
    cut_and_upload second_cut_fails readable third_put_raises "bucket"
      "/tmp/shotcutter_a" last_first "video.mp4"
      [(0, 25); (25, 33); (33, 63)] "clip" = Return final ∧
    index_of <$> final = [1%Z].
Proof. eexists. split; [vm_compute; reflexivity|reflexivity]. Qed.

End Witnesses.

(** * The rest of the package *)

Import SegmenterRest Pools Detector CutterRest Package.
(** ** The rest of the segmenter *)

Section SegmenterRestProperties.
Variable max_duration : Q.
Hypothesis max_positive : (0 < max_duration)%Q.
Local Open Scope Q_scope.






End SegmenterRestProperties.

Section SegmenterRestClaims.
Local Open Scope Q_scope.


Lemma hard_split_diverges (max_duration : Q) fuel segs a r :
  max_duration <= 0 → 0 < r →
  hard_split max_duration fuel segs a r = None.
Proof.
  intros Hmax. revert segs a r.
  induction fuel as [|fuel IH]; intros segs a r Hr; qnum.
  - qtest (Qgt_bool r max_duration) E; [done|lra].
  - qtest (Qgt_bool r max_duration) E; [|lra]. apply IH. lra.
Qed.

Lemma segment_first_shot_diverges (max_duration : Q) (shot : Shot Q)
    (rest : list (Shot Q)) (fuel : nat) :
  max_duration <= 0 → 0 < duration shot →
  segment max_duration fuel (shot :: rest) = None.
Proof.
  intros Hmax Hd.
  assert (Qle_bool (0 + duration shot) max_duration = false) as E1
    by (apply Qle_bool_false; lra).
  assert (Qgt_bool (duration shot) max_duration = true) as E2
    by (apply Qgt_bool_true; lra).
  unfold segment. cbn [for_shots]. unfold step, initial. qnum. simpl.
  rewrite E1, E2. unfold save_current. simpl.
  by rewrite hard_split_diverges.
Qed.

(** X2. No validation of [max_duration].  The constructor stores any number;
    with [max_duration <= 0] and a first shot of positive duration the inner
    loop of [segment] never ends: no bound on its iterations gives a
    result. *)
Theorem segment_diverges (max_duration : Q) (shot : Shot Q)
    (rest : list (Shot Q)) (fuel : nat) :
  max_duration <= 0 → 0 < duration shot →
  segment max_duration fuel (shot :: rest) = None.
Proof. apply segment_first_shot_diverges. Qed.


End SegmenterRestClaims.
(** *** [get_segment_stats] *)

Section StatsProperties.
Local Open Scope Q_scope.

Lemma foldl_Qplus (acc : Q) (l : list Q) :
  foldl Qplus acc l == acc + sum_Q l.
Proof.
  revert acc. induction l as [|x l IH]; intros acc; simpl.
  - unfold sum_Q. simpl. lra.
  - rewrite IH. unfold sum_Q. simpl. lra.
Qed.

Lemma py_sum_sum (l : list Q) : py_sum l == sum_Q l.
Proof. unfold py_sum. rewrite foldl_Qplus. lra. Qed.

Lemma foldl_min (first : Q) (rest : list Q) :
  let m := foldl (λ m x, if Qgt_bool m x then x else m) first rest in
  m ∈ first :: rest ∧ Forall (λ x, m <= x) (first :: rest).
Proof.
  revert first. induction rest as [|x rest IH]; intros first; simpl.
  - split; [apply elem_of_cons; by left|]. repeat constructor. lra.
  - qtest (Qgt_bool first x) E.
    + destruct (IH x) as [Hin Hall].
      split; [by apply elem_of_cons; right|].
      inversion Hall as [|? ? Hx Hrest]; subst.
      constructor; [lra|]. by constructor.
    + destruct (IH first) as [Hin Hall].
      split; [apply elem_of_cons in Hin as [Hin|Hin];
              rewrite !elem_of_cons; auto|].
      inversion Hall as [|? ? Hx Hrest]; subst.
      constructor; [done|]. constructor; [lra|done].
Qed.

Lemma foldl_max (first : Q) (rest : list Q) :
  let m := foldl (λ m x, if Qgt_bool x m then x else m) first rest in
  m ∈ first :: rest ∧ Forall (λ x, x <= m) (first :: rest).
Proof.
  revert first. induction rest as [|x rest IH]; intros first; simpl.
  - split; [apply elem_of_cons; by left|]. repeat constructor. lra.
  - qtest (Qgt_bool x first) E.
    + destruct (IH x) as [Hin Hall].
      split; [by apply elem_of_cons; right|].
      inversion Hall as [|? ? Hx Hrest]; subst.
      constructor; [lra|]. by constructor.
    + destruct (IH first) as [Hin Hall].
      split; [apply elem_of_cons in Hin as [Hin|Hin];
              rewrite !elem_of_cons; auto|].
      inversion Hall as [|? ? Hx Hrest]; subst.
      constructor; [done|]. constructor; [lra|done].
Qed.

Lemma sum_Q_bounds (lo hi : Q) (l : list Q) :
  Forall (λ x, lo <= x <= hi) l →
  inject_Z (Z.of_nat (length l)) * lo <= sum_Q l ∧
  sum_Q l <= inject_Z (Z.of_nat (length l)) * hi.
Proof.
  induction 1 as [|x l [Hlo Hhi] _ [IHlo IHhi]].
  - unfold sum_Q. simpl. change (inject_Z (Z.of_nat 0)) with 0. lra.
  - cbn [length]. 
    assert (inject_Z (Z.of_nat (S (length l))) * lo ==
            inject_Z (Z.of_nat (length l)) * lo + lo) as ->
      by (rewrite inject_nat_S; ring).
    assert (inject_Z (Z.of_nat (S (length l))) * hi ==
            inject_Z (Z.of_nat (length l)) * hi + hi) as ->
      by (rewrite inject_nat_S; ring).
    change (sum_Q (x :: l)) with (x + sum_Q l). lra.
Qed.

Lemma count_positive {A} (l : list A) :
  l ≠ [] → 0 < inject_Z (Z.of_nat (length l)).
Proof.
  intros Hl. change 0 with (inject_Z 0). rewrite <- Zlt_Qlt.
  destruct l; [done|]. simpl. lia.
Qed.

Lemma truediv_nonzero (a b : Q) : ¬ b == 0 → truediv a b = Return (a / b).
Proof.
  intros Hb. unfold truediv. destruct (Qeq_bool b 0) eqn:E; [|done].
  by apply Qeq_bool_iff in E.
Qed.

(** What [get_segment_stats] computes on a non-empty list. *)
Lemma get_segment_stats_values (max_duration : Q) (segments : list (Q * Q)) :
  segments ≠ [] → ¬ max_duration == 0 →
  let count := inject_Z (Z.of_nat (length segments)) in
  ∃ total avg lo hi rate,
    get_segment_stats max_duration segments
    = Return (<["segment_count" := VInt (Z.of_nat (length segments))]> (
              <["total_duration" := VFloat total]> (
              <["avg_duration" := VFloat avg]> (
              <["min_duration" := VFloat lo]> (
              <["max_duration" := VFloat hi]> (
              <["utilization_rate" := VFloat rate]> ∅)))))) ∧
    total == sum_Q (seg_duration <$> segments) ∧
    avg * count == total ∧
    lo ∈ seg_duration <$> segments ∧ hi ∈ seg_duration <$> segments ∧
    Forall (λ s, lo <= seg_duration s <= hi) segments ∧
    lo <= avg <= hi ∧
    rate * (count * max_duration) == total * 100.
Proof.
  intros Hne Hmax count.
  assert (0 < count) as Hcount by (by apply count_positive).
  assert (((λ '(start, end_), end_ - start) <$> segments)
          = seg_duration <$> segments) as Hd.
  { apply list_fmap_ext. by intros _ [start end_] _. }
  assert (¬ count == 0) as Hc0 by (intros Hz; lra).
  unfold get_segment_stats. destruct segments as [|s rest]; [done|].
  cbv iota. set (segments := s :: rest) in *. rewrite Hd. fold count.
  rewrite (truediv_nonzero _ _ Hc0).
  assert (¬ count * max_duration == 0) as Hcm.
  { intros Hz. apply Qmult_integral in Hz as [Hz|Hz]; [lra|done]. }
  rewrite (truediv_nonzero _ _ Hcm).
  destruct (seg_duration <$> segments) as [|d ds] eqn:Eds; [done|].
  destruct (foldl_min d ds) as [Hlo_in Hlo].
  destruct (foldl_max d ds) as [Hhi_in Hhi].
  pose proof (py_sum_sum (d :: ds)) as Hsum.
  set (total := py_sum (d :: ds)) in *.
  set (lo := foldl _ d ds) in *. set (hi := foldl _ d ds) in Hhi_in, Hhi |- *.
  assert (Forall (λ x, lo <= x <= hi) (d :: ds)) as Hall.
  { apply Forall_forall. intros x Hx. split.
    - by apply (proj1 (Forall_forall _ _) Hlo).
    - by apply (proj1 (Forall_forall _ _) Hhi). }
  destruct (sum_Q_bounds lo hi _ Hall) as [Hblo Hbhi].
  assert (length (d :: ds) = length segments) as Hlen
    by (by rewrite <- Eds, length_fmap).
  rewrite Hlen in Hblo, Hbhi. fold count in Hblo, Hbhi.
  assert (total / count * count == total) as Havg by (field; lra).
  simpl. eexists total, (total / count), lo, hi, _.
  split; [reflexivity|]. split; [done|]. split; [done|].
  split; [done|]. split; [done|]. split.
  { apply Forall_forall. intros x Hx.
    apply (proj1 (Forall_forall _ _) Hall). rewrite <- Eds.
    by apply list_elem_of_fmap_2. }
  split.
  - set (avg := total / count) in *.
    assert (lo * count <= avg * count) as H1
      by (rewrite Qmult_comm; lra).
    assert (avg * count <= hi * count) as H2
      by (rewrite (Qmult_comm hi); lra).
    split; [by apply Qmult_le_r in H1|by apply Qmult_le_r in H2].
  - field. done.
Qed.

End StatsProperties.

Section StatsClaims.
Local Open Scope Q_scope.

(** X4. [get_segment_stats] on a non-empty list, [max_duration] not zero: the
    count is the length, the total is the sum of the durations, the average
    times the count is the total, the minimum and the maximum are durations
    of the list that bound all of them and the average, and the utilization
    rate is the total as a percentage of [count * max_duration]. *)
Theorem get_segment_stats_summary (max_duration : Q)
    (segments : list (Q * Q)) :
  segments ≠ [] → ¬ max_duration == 0 →
  let count := inject_Z (Z.of_nat (length segments)) in
  ∃ total avg lo hi rate,
    get_segment_stats max_duration segments
    = Return (<["segment_count" := VInt (Z.of_nat (length segments))]> (
              <["total_duration" := VFloat total]> (
              <["avg_duration" := VFloat avg]> (
              <["min_duration" := VFloat lo]> (
              <["max_duration" := VFloat hi]> (
              <["utilization_rate" := VFloat rate]> ∅)))))) ∧
    total == sum_Q (seg_duration <$> segments) ∧
    avg * count == total ∧
    lo ∈ seg_duration <$> segments ∧ hi ∈ seg_duration <$> segments ∧
    Forall (λ s, lo <= seg_duration s <= hi) segments ∧
    lo <= avg <= hi ∧
    rate * (count * max_duration) == total * 100.
Proof. apply get_segment_stats_values. Qed.



Lemma segment_diverges_witness :
  segment 0 7 scenario_shots = None.
Proof. apply segment_diverges; [by vm_compute|reflexivity]. Defined.


Lemma get_segment_stats_summary_witness :
  let segments := [(0, 25); (25, 33); (33, 63)] in
  let count := inject_Z (Z.of_nat (length segments)) in
  ∃ total avg lo hi rate,
    get_segment_stats 30 segments
    = Return (<["segment_count" := VInt (Z.of_nat (length segments))]> (
              <["total_duration" := VFloat total]> (
              <["avg_duration" := VFloat avg]> (
              <["min_duration" := VFloat lo]> (
              <["max_duration" := VFloat hi]> (
              <["utilization_rate" := VFloat rate]> ∅)))))) ∧
    total == sum_Q (seg_duration <$> segments) ∧
    avg * count == total ∧
    lo ∈ seg_duration <$> segments ∧ hi ∈ seg_duration <$> segments ∧
    Forall (λ s, lo <= seg_duration s <= hi) segments ∧
    lo <= avg <= hi ∧
    rate * (count * 30) == total * 100.
Proof.
  apply (get_segment_stats_summary 30 [(0, 25); (25, 33); (33, 63)]);
    discriminate.
Defined.


End StatsClaims.
(** ** The worker pools *)

Section PoolProperties.

Lemma new_executor_cases k n objs :
  (n ≤ 0 ∧ new_executor k n objs
             = Raise (Error "max_workers must be greater than 0"))%Z ∨
  (0 < n ∧ new_executor k n objs
           = Return (length objs,
                     objs ++ [{| kind := k; max_workers := n;
                                 is_shutdown := false |}]))%Z.
Proof.
  unfold new_executor. destruct (n <=? 0)%Z eqn:E.
  - left. split; [by apply Z.leb_le|done].
  - right. split; [by apply Z.leb_gt|done].
Qed.

Lemma lookup_shutdown pool objs i e :
  shutdown pool objs !! i = Some e →
  ∃ e0, objs !! i = Some e0 ∧ kind e = kind e0 ∧
        max_workers e = max_workers e0 ∧
        (is_shutdown e = false → i ≠ pool ∧ is_shutdown e0 = false).
Proof.
  unfold shutdown. destruct (decide (i = pool)) as [->|Hne].
  - rewrite list_lookup_alter_eq.
    destruct (objs !! pool) as [e0|]; [|done]. intros [= <-].
    exists e0. by repeat split.
  - rewrite list_lookup_alter_ne by done. intros He.
    exists e. by repeat split.
Qed.

Lemma lookup_shutdown_other pool objs i e :
  i ≠ pool → objs !! i = Some e → shutdown pool objs !! i = Some e.
Proof. intros Hne He. unfold shutdown. by rewrite list_lookup_alter_ne. Qed.

Lemma pools_bounded_import cpu_count env_workers :
  pools_bounded (import_module cpu_count env_workers).
Proof.
  split; [|split]; simpl.
  - intros pool e Hpool. by rewrite lookup_nil in Hpool.
  - intros pool Hpool. discriminate.
  - intros pool Hpool. discriminate.
Qed.

Lemma pools_bounded_get_process m pool m' :
  pools_bounded m → _get_process_pool m = Return (pool, m') →
  pools_bounded m' ∧ MAX_WORKERS m' = MAX_WORKERS m.
Proof.
  intros Hm. pose proof Hm as (Hlive & Hp & Ht). unfold _get_process_pool.
  destruct (_GLOBAL_PROCESS_POOL m) as [p|] eqn:Eg.
  { by intros [= <- <-]. }
  destruct (new_executor_cases ProcessPoolExecutor (MAX_WORKERS m)
              (objects m)) as [[_ ->]|[Hpos ->]]; [done|].
  simpl. intros [= <- <-]. split; [|done]. split; [|split]; simpl.
  - intros i e Hi Hs.
    destruct (decide (i < length (objects m))%nat) as [Hlt|Hge].
    + rewrite lookup_app_l in Hi by done.
      destruct (Hlive i e Hi Hs) as [Hw Hk]. split; [done|].
      destruct (kind e); [congruence|done].
    + rewrite lookup_app_r in Hi by lia.
      apply list_lookup_singleton_Some in Hi as [Hi <-]. simpl.
      split; [done|]. f_equal. lia.
  - intros p [= <-]. eexists. split.
    + rewrite lookup_app_r by lia. by rewrite Nat.sub_diag.
    + done.
  - intros p Hg. destruct (Ht p Hg) as (e & He & Hk & Hs).
    exists e. split; [|done].
    apply lookup_app_l_Some. done.
Qed.

Lemma pools_bounded_get_thread m pool m' :
  pools_bounded m → _get_thread_pool m = Return (pool, m') →
  pools_bounded m' ∧ MAX_WORKERS m' = MAX_WORKERS m.
Proof.
  intros Hm. pose proof Hm as (Hlive & Hp & Ht). unfold _get_thread_pool.
  destruct (_GLOBAL_THREAD_POOL m) as [p|] eqn:Eg.
  { by intros [= <- <-]. }
  destruct (new_executor_cases ThreadPoolExecutor (MAX_WORKERS m)
              (objects m)) as [[_ ->]|[Hpos ->]]; [done|].
  simpl. intros [= <- <-]. split; [|done]. split; [|split]; simpl.
  - intros i e Hi Hs.
    destruct (decide (i < length (objects m))%nat) as [Hlt|Hge].
    + rewrite lookup_app_l in Hi by done.
      destruct (Hlive i e Hi Hs) as [Hw Hk]. split; [done|].
      destruct (kind e); [done|congruence].
    + rewrite lookup_app_r in Hi by lia.
      apply list_lookup_singleton_Some in Hi as [Hi <-]. simpl.
      split; [done|]. f_equal. lia.
  - intros p Hg. destruct (Hp p Hg) as (e & He & Hk & Hs).
    exists e. split; [|done].
    apply lookup_app_l_Some. done.
  - intros p [= <-]. eexists. split.
    + rewrite lookup_app_r by lia. by rewrite Nat.sub_diag.
    + done.
Qed.

Lemma pools_bounded_cleanup m :
  pools_bounded m →
  pools_bounded (_cleanup_pools m) ∧
  MAX_WORKERS (_cleanup_pools m) = MAX_WORKERS m ∧
  _GLOBAL_PROCESS_POOL (_cleanup_pools m) = None ∧
  _GLOBAL_THREAD_POOL (_cleanup_pools m) = None.
Proof.
  intros (Hlive & Hp & Ht).
  assert (∀ i e, objects (_cleanup_pools m) !! i = Some e →
                 is_shutdown e = false → False) as Hnone.
  { unfold _cleanup_pools. intros i e.
    destruct (_GLOBAL_PROCESS_POOL m) as [p|] eqn:Egp;
      destruct (_GLOBAL_THREAD_POOL m) as [t|] eqn:Egt; simpl;
      rewrite ?Egp, ?Egt; simpl; intros Hi Hs.
    - apply lookup_shutdown in Hi as (e1 & Hi & Hk1 & Hw1 & Hs1).
      destruct (Hs1 Hs) as [Hit Hs1'].
      apply lookup_shutdown in Hi as (e0 & Hi & Hk0 & Hw0 & Hs0).
      destruct (Hs0 Hs1') as [Hip Hs0'].
      destruct (Hlive i e0 Hi Hs0') as [_ Hk].
      destruct (kind e0); congruence.
    - apply lookup_shutdown in Hi as (e0 & Hi & Hk0 & Hw0 & Hs0).
      destruct (Hs0 Hs) as [Hip Hs0'].
      destruct (Hlive i e0 Hi Hs0') as [_ Hk].
      destruct (kind e0); congruence.
    - apply lookup_shutdown in Hi as (e0 & Hi & Hk0 & Hw0 & Hs0).
      destruct (Hs0 Hs) as [Hip Hs0'].
      destruct (Hlive i e0 Hi Hs0') as [_ Hk].
      destruct (kind e0); congruence.
    - destruct (Hlive i e Hi Hs) as [_ Hk].
      destruct (kind e); congruence. }
  assert (MAX_WORKERS (_cleanup_pools m) = MAX_WORKERS m ∧
          _GLOBAL_PROCESS_POOL (_cleanup_pools m) = None ∧
          _GLOBAL_THREAD_POOL (_cleanup_pools m) = None) as (Hw & Hgp & Hgt).
  { unfold _cleanup_pools.
    destruct (_GLOBAL_PROCESS_POOL m) as [p|] eqn:Egp;
      destruct (_GLOBAL_THREAD_POOL m) as [t|] eqn:Egt; simpl;
      rewrite ?Egp, ?Egt; simpl; done. }
  split; [|done]. split; [|split].
  - intros i e Hi Hs. destruct (Hnone i e Hi Hs).
  - intros pool Hpool. congruence.
  - intros pool Hpool. congruence.
Qed.

Lemma pools_bounded_run_call c m :
  pools_bounded m →
  pools_bounded (run_call c m) ∧ MAX_WORKERS (run_call c m) = MAX_WORKERS m.
Proof.
  intros Hm. destruct c; simpl.
  - destruct (_get_process_pool m) as [[pool m']|e] eqn:E; [|done].
    by eapply pools_bounded_get_process.
  - destruct (_get_thread_pool m) as [[pool m']|e] eqn:E; [|done].
    by eapply pools_bounded_get_thread.
  - destruct (pools_bounded_cleanup m Hm) as (? & ? & _). done.
Qed.

Lemma pools_bounded_after cpu_count env_workers calls :
  pools_bounded (after cpu_count env_workers calls) ∧
  MAX_WORKERS (after cpu_count env_workers calls)
  = get_max_workers cpu_count env_workers.
Proof.
  unfold after.
  induction calls as [|c calls IH] using rev_ind; simpl.
  - split; [apply pools_bounded_import|done].
  - rewrite foldl_app. simpl. destruct IH as [Hb Hw].
    destruct (pools_bounded_run_call c _ Hb) as [Hb' Hw'].
    split; [done|congruence].
Qed.

End PoolProperties.



Section PoolClaims.

(** X6. The executors that hold workers.  After the import and any sequence of
    pool acquisitions and clean-ups, every executor that has not been shut
    down is the one a global refers to: at most one process pool and one
    thread pool, each with [MAX_WORKERS] workers, the value computed at
    import. *)
Theorem pools_stay_bounded (cpu_count : option Z)
    (env_workers : option string) (calls : list call) :
  let m := after cpu_count env_workers calls in
  pools_bounded m ∧
  status_max_workers (get_pool_status m)
  = get_max_workers cpu_count env_workers.
Proof. apply pools_bounded_after. Qed.

(** X7. Singletons.  Once the process pool and the thread pool have been
    acquired, acquiring either again returns the same executor and changes
    nothing, and [get_pool_status] reports both as initialized. *)
Theorem pools_are_singletons (m m1 m2 : module_state) (p t : nat) :
  _get_process_pool m = Return (p, m1) →
  _get_thread_pool m1 = Return (t, m2) →
  _get_process_pool m2 = Return (p, m2) ∧
  _get_thread_pool m2 = Return (t, m2) ∧
  get_pool_status m2
  = {| status_max_workers := MAX_WORKERS m;
       process_pool_initialized := true;
       thread_pool_initialized := true |}.
Proof.
  unfold _get_process_pool, _get_thread_pool, get_pool_status.
  destruct (_GLOBAL_PROCESS_POOL m) as [p0|] eqn:Ep.
  - intros [= <- <-]. destruct (_GLOBAL_THREAD_POOL m) as [t0|] eqn:Et.
    + intros [= <- <-]. by rewrite ?Ep, ?Et.
    + destruct (new_executor_cases ThreadPoolExecutor (MAX_WORKERS m)
                  (objects m)) as [[_ ->]|[_ ->]]; [done|].
      simpl. intros [= <- <-]. simpl. by rewrite ?Ep.
  - destruct (new_executor_cases ProcessPoolExecutor (MAX_WORKERS m)
                (objects m)) as [[_ ->]|[_ ->]]; [done|].
    simpl. intros [= <- <-]. simpl.
    destruct (_GLOBAL_THREAD_POOL m) as [t0|] eqn:Et.
    + intros [= <- <-]. simpl. by rewrite ?Et.
    + destruct (new_executor_cases ThreadPoolExecutor (MAX_WORKERS m)
                  (objects m ++ [{| kind := ProcessPoolExecutor;
                                    max_workers := MAX_WORKERS m;
                                    is_shutdown := false |}]))
        as [[_ ->]|[_ ->]]; [done|].
      simpl. by intros [= <- <-].
Qed.



Lemma pools_are_singletons_witness :
  ∃ m2,
    _get_process_pool m2 = Return (0%nat, m2) ∧
    _get_thread_pool m2 = Return (1%nat, m2) ∧
    get_pool_status m2
    = {| status_max_workers := 4;
         process_pool_initialized := true;
         thread_pool_initialized := true |}.
Proof.
  eexists.
  eapply (pools_are_singletons (import_module (Some 8%Z) None));
    reflexivity.
Defined.


End PoolClaims.

(** ** From frames to shots to segments *)

Lemma last_cons_default {A} (b d : A) (rest : list A) :
  List.last (b :: rest) d = List.last rest b.
Proof.
  revert b d. induction rest as [|c rest IH]; intros b d; [done|].
  change (List.last (b :: c :: rest) d) with (List.last (c :: rest) d).
  by rewrite !IH.
Qed.

Section DetectorProperties.
Local Open Scope Q_scope.
Variable fps : Q.
Hypothesis fps_nonzero : ¬ fps == 0.

Lemma for_boundaries_shots boundaries shots start :
  for_boundaries fps boundaries shots start
  = Return (shots ++ shots_between fps start boundaries,
            List.last boundaries start).
Proof.
  revert shots start.
  induction boundaries as [|b rest IH]; intros shots start.
  - simpl. by rewrite app_nil_r.
  - rewrite last_cons_default. cbn [for_boundaries].
    rewrite !truediv_nonzero by done. simpl.
    by rewrite IH, <- app_assoc.
Qed.

Lemma shots_between_start_frames start boundaries last :
  start_frame <$> (shots_between fps start boundaries ++
                   [ {| start_frame := List.last boundaries start;
                        end_frame := last;
                        start_time := inject_Z (List.last boundaries start) / fps;
                        end_time := inject_Z last / fps;
                        duration :=
                          inject_Z (last - List.last boundaries start) / fps |} ])
  = start :: boundaries.
Proof.
  revert start. induction boundaries as [|b rest IH]; intros start; [done|].
  rewrite last_cons_default. simpl. f_equal. apply IH.
Qed.

Lemma shots_between_end_frames start boundaries :
  end_frame <$> shots_between fps start boundaries = boundaries.
Proof.
  revert start. induction boundaries as [|b rest IH]; intros start; [done|].
  simpl. by rewrite IH.
Qed.

Lemma inject_Z_sub (a b : Z) : inject_Z (a - b) == inject_Z a - inject_Z b.
Proof. unfold Z.sub. rewrite inject_Z_plus, inject_Z_opp. lra. Qed.

Lemma shots_between_total start boundaries :
  total_duration (shots_between fps start boundaries)
  == inject_Z (List.last boundaries start - start) / fps.
Proof.
  revert start. induction boundaries as [|b rest IH]; intros start.
  - simpl. rewrite Z.sub_diag. change (total_duration []) with 0.
    unfold Qdiv. change (inject_Z 0) with 0. lra.
  - cbn [shots_between]. rewrite total_duration_cons, IH. simpl duration.
    rewrite last_cons_default, !inject_Z_sub. field. done.
Qed.

Lemma sum_Q_cons (x : Q) (l : list Q) : sum_Q (x :: l) = x + sum_Q l.
Proof. reflexivity. Qed.

Lemma total_duration_snoc shots shot :
  total_duration (shots ++ [shot]) == total_duration shots + duration shot.
Proof.
  unfold total_duration. rewrite fmap_app, sum_Q_app. simpl. lra.
Qed.

End DetectorProperties.

Section DetectorOrder.
Local Open Scope Q_scope.
Variable fps : Q.
Hypothesis fps_positive : 0 < fps.

Lemma frames_duration (a b : Z) :
  (a ≤ b)%Z → 0 <= inject_Z (b - a) / fps.
Proof.
  intros Hab. apply Qle_shift_div_l; [done|].
  rewrite Qmult_0_l. change 0 with (inject_Z 0). rewrite <- Zle_Qle. lia.
Qed.

Lemma frames_duration_positive (a b : Z) :
  (a < b)%Z → 0 < inject_Z (b - a) / fps.
Proof.
  intros Hab. apply Qlt_shift_div_l; [done|].
  rewrite Qmult_0_l. change 0 with (inject_Z 0). rewrite <- Zlt_Qlt. lia.
Qed.

Lemma ascending_last first frames last :
  ascending first frames last → (List.last frames first ≤ last)%Z.
Proof.
  revert first. induction frames as [|f rest IH]; intros first; [done|].
  intros [_ Hr]. rewrite last_cons_default. by apply IH.
Qed.

Lemma increasing_last first frames last :
  increasing first frames last → (List.last frames first < last)%Z.
Proof.
  revert first. induction frames as [|f rest IH]; intros first; [done|].
  intros [_ Hr]. rewrite last_cons_default. by apply IH.
Qed.

Lemma shots_between_nonnegative start boundaries last :
  ascending start boundaries last →
  Forall (λ shot, 0 <= duration shot) (shots_between fps start boundaries).
Proof.
  revert start. induction boundaries as [|b rest IH]; intros start;
    [constructor|].
  intros [Hb Hr]. constructor; [by apply frames_duration|by apply IH].
Qed.

Lemma shots_between_covering start boundaries last :
  increasing start boundaries last →
  covering (inject_Z start / fps)
    (shots_between fps start boundaries ++
     [ {| start_frame := List.last boundaries start;
          end_frame := last;
          start_time := inject_Z (List.last boundaries start) / fps;
          end_time := inject_Z last / fps;
          duration := inject_Z (last - List.last boundaries start) / fps |} ]).
Proof.
  assert (¬ fps == 0) as Hfps by lra.
  revert start. induction boundaries as [|b rest IH]; intros start.
  - simpl. intros Hl.
    repeat split;
      [rewrite inject_Z_sub; by field|by apply frames_duration_positive].
  - intros [Hb Hr]. rewrite last_cons_default.
    cbn [shots_between app covering]. simpl.
    repeat split;
      [rewrite inject_Z_sub; by field|by apply frames_duration_positive|].
    by apply IH.
Qed.

End DetectorOrder.

Section DetectorClaims.
Local Open Scope Q_scope.

(** X10. Streaming detection.  For a positive frame rate and boundaries that
    increase strictly between frame [0] and the last frame,
    [_build_shots_from_boundaries] returns one shot more than there are
    boundaries: the shots start at frame [0] and at each boundary, end at
    each boundary and at the last frame, and cover the video from [0.0]
    without gaps, each with [duration = end_time - start_time > 0]. *)
Theorem build_shots_cover_video (boundaries : list Z) (fps : Q)
    (total_frames : Z) :
  0 < fps → increasing 0 boundaries (total_frames - 1) →
  ∃ shots,
    _build_shots_from_boundaries boundaries fps total_frames = Return shots ∧
    start_frame <$> shots = 0%Z :: boundaries ∧
    end_frame <$> shots = boundaries ++ [(total_frames - 1)%Z] ∧
    covering 0 shots ∧
    total_duration shots == inject_Z (total_frames - 1) / fps.
Proof.
  intros Hfps Hinc. assert (¬ fps == 0) as Hnz by lra.
  destruct boundaries as [|b rest].
  - simpl in Hinc. unfold _build_shots_from_boundaries.
    rewrite !truediv_nonzero by done. eexists. split; [done|].
    split; [done|]. split; [done|]. split.
    + simpl. repeat split; [lra|].
      apply Qlt_shift_div_l; [done|]. rewrite Qmult_0_l.
      change 0 with (inject_Z 0). rewrite <- Zlt_Qlt. lia.
    + unfold total_duration. simpl. lra.
  - unfold _build_shots_from_boundaries.
    rewrite for_boundaries_shots by done. cbn [mbind result_bind].
    pose proof (increasing_last _ _ _ Hinc) as Hlast.
    set (boundaries := b :: rest) in *.
    destruct (Z.ltb_spec (List.last boundaries 0%Z) total_frames) as [_|Hge];
      [|lia].
    rewrite !truediv_nonzero by done. cbn [mbind result_bind app].
    eexists. split; [done|].
    replace (total_frames - 1 - List.last boundaries 0%Z)%Z
      with (total_frames - 1 - List.last boundaries 0)%Z by done.
    split; [apply shots_between_start_frames|].
    split; [by rewrite fmap_app, shots_between_end_frames|].
    split.
    + pose proof (shots_between_covering fps Hfps 0%Z boundaries
                    (total_frames - 1)%Z Hinc) as Hc.
      assert (inject_Z 0 / fps == 0) as E by (by field).
      clear - Hc E. revert Hc.
      generalize (shots_between fps 0 boundaries ++
        [{| start_frame := List.last boundaries 0%Z;
            end_frame := total_frames - 1;
            start_time := inject_Z (List.last boundaries 0%Z) / fps;
            end_time := inject_Z (total_frames - 1) / fps;
            duration :=
              inject_Z (total_frames - 1 - List.last boundaries 0%Z) / fps
         |}]).
      intros [|shot shots]; [done|]. simpl. intros (Hs & ?). split; [|done].
      by rewrite Hs.
    + rewrite total_duration_snoc, shots_between_total by done. simpl.
      rewrite !inject_Z_sub. change (inject_Z 0) with 0. by field.
Qed.

(** X11. A frame rate of zero.  Whatever the boundaries and the frame count,
    [_build_shots_from_boundaries] raises [ZeroDivisionError] when [fps] is
    zero, and returns a list of shots when it is not. *)
Theorem build_shots_frame_rate (boundaries : list Z) (fps : Q)
    (total_frames : Z) :
  if Qeq_bool fps 0
  then _build_shots_from_boundaries boundaries fps total_frames
       = Raise (Error "float division by zero")
  else ∃ shots,
         _build_shots_from_boundaries boundaries fps total_frames
         = Return shots ∧
         (length boundaries ≤ length shots ≤ length boundaries + 1)%nat.
Proof.
  destruct (Qeq_bool fps 0) eqn:E.
  - unfold _build_shots_from_boundaries, truediv.
    destruct boundaries as [|b rest]; [by rewrite E|].
    cbn [for_boundaries]. unfold truediv. by rewrite E.
  - assert (¬ fps == 0) as Hnz.
    { intros H0. apply Qeq_bool_iff in H0. congruence. }
    unfold _build_shots_from_boundaries.
    destruct boundaries as [|b rest].
    + rewrite !truediv_nonzero by done. eexists. split; [done|]. simpl. lia.
    + rewrite for_boundaries_shots by done. cbn [mbind result_bind].
      assert (length (shots_between fps 0 (b :: rest)) = length (b :: rest))
        as Hlen.
      { rewrite <- (length_fmap end_frame), shots_between_end_frames. done. }
      destruct (_ <? _)%Z.
      * rewrite !truediv_nonzero by done. eexists. split; [done|].
        cbn [app]. rewrite length_app, Hlen. simpl. lia.
      * eexists. split; [done|]. cbn [app]. rewrite Hlen. lia.
Qed.

(** X12. Streaming detection, then segmentation.  For a positive frame rate and
    a positive [max_duration], when the boundaries do not go down between
    frame [0] and the last frame, the segments of the shots built from
    them run without gaps from [0.0] to the time of the last frame,
    [(total_frames - 1) / fps], each of them at most [max_duration]
    long. *)
Theorem build_shots_then_segment (boundaries : list Z) (fps : Q)
    (total_frames : Z) (max_duration : Q) :
  0 < fps → 0 < max_duration →
  ascending 0 boundaries (total_frames - 1) →
  ∃ shots segs e,
    _build_shots_from_boundaries boundaries fps total_frames = Return shots ∧
    returns max_duration shots segs ∧
    chain 0 segs e ∧ e == inject_Z (total_frames - 1) / fps ∧
    Forall (λ s, s.2 - s.1 <= max_duration) segs.
Proof.
  intros Hfps Hmax Hasc. assert (¬ fps == 0) as Hnz by lra.
  assert (∃ shots,
    _build_shots_from_boundaries boundaries fps total_frames = Return shots ∧
    Forall (λ shot, 0 <= duration shot) shots ∧
    total_duration shots == inject_Z (total_frames - 1) / fps)
    as (shots & Hb & Hd & Ht).
  { unfold _build_shots_from_boundaries. destruct boundaries as [|b rest].
    - simpl in Hasc. rewrite !truediv_nonzero by done.
      eexists. split; [done|]. split.
      + constructor; [|constructor]. simpl.
        pose proof (frames_duration fps Hfps 0 (total_frames - 1) Hasc) as H0.
        by rewrite Z.sub_0_r in H0.
      + unfold total_duration. simpl. lra.
    - rewrite for_boundaries_shots by done. cbn [mbind result_bind].
      pose proof (ascending_last _ _ _ Hasc) as Hlast.
      set (boundaries := b :: rest) in *.
      destruct (Z.ltb_spec (List.last boundaries 0%Z) total_frames)
        as [_|Hge]; [|lia].
      rewrite !truediv_nonzero by done. cbn [mbind result_bind app].
      eexists. split; [done|]. split.
      + apply Forall_app. split.
        * by apply (shots_between_nonnegative fps Hfps _ _ (total_frames - 1)).
        * constructor; [|constructor]. simpl. by apply frames_duration.
      + rewrite total_duration_snoc, shots_between_total by done. simpl.
        rewrite !inject_Z_sub. change (inject_Z 0) with 0. by field. }
  destruct (segment_total max_duration Hmax shots) as [segs Hr].
  exists shots, segs.
  destruct (Hr) as [fuel Hf]. specialize (Hf fuel ltac:(done)).
  destruct (segment_conserved max_duration Hmax fuel shots segs Hd Hf)
    as (e & Hc & He).
  exists e. split; [done|]. split; [done|]. split; [done|].
  split; [lra|]. by eapply segment_bounded.
Qed.

(** X13. Batch detection, then segmentation.  The shots that [_detect_batch]
    makes of the scenes of the model carry [duration = end_time -
    start_time]; for scenes that do not end before they start, the
    segments of these shots run without gaps from [0.0] to the sum of the
    scene lengths in seconds, whatever the frames between two scenes. *)
Theorem batch_shots_then_segment (scenes : list (Z * Z)) (fps : Q)
    (max_duration : Q) :
  0 < fps → 0 < max_duration →
  Forall (λ scene, (scene.1 ≤ scene.2)%Z) scenes →
  ∃ shots segs e,
    shots_of_scenes fps scenes [] = Return shots ∧
    Forall (λ shot, duration shot = end_time shot - start_time shot) shots ∧
    returns max_duration shots segs ∧
    chain 0 segs e ∧
    e == sum_Q ((λ scene, inject_Z (scene.2 - scene.1) / fps) <$> scenes).
Proof.
  intros Hfps Hmax Hsc. assert (¬ fps == 0) as Hnz by lra.
  assert (∀ shots,
    Forall (λ shot, duration shot = end_time shot - start_time shot) shots →
    Forall (λ shot, 0 <= duration shot) shots →
    ∃ shots',
      shots_of_scenes fps scenes shots = Return shots' ∧
      Forall (λ shot, duration shot = end_time shot - start_time shot) shots' ∧
      Forall (λ shot, 0 <= duration shot) shots' ∧
      total_duration shots'
      == total_duration shots +
         sum_Q ((λ scene, inject_Z (scene.2 - scene.1) / fps) <$> scenes))
    as Hloop.
  { induction Hsc as [|[s e] rest Hse _ IH]; intros shots Hd Hn.
    - exists shots. repeat split; [done..|]. simpl. lra.
    - cbn [shots_of_scenes]. rewrite !truediv_nonzero by done.
      cbn [mbind result_bind]. simpl in Hse.
      assert (inject_Z e / fps - inject_Z s / fps
              == inject_Z (e - s) / fps) as Eq.
      { rewrite inject_Z_sub. by field. }
      edestruct IH as (shots' & E & Hd' & Hn' & Ht); last first.
      + exists shots'. split; [exact E|]. split; [done|]. split; [done|].
        rewrite Ht, total_duration_snoc, fmap_cons, sum_Q_cons.
        cbn [duration fst snd]. rewrite Eq.
        generalize (sum_Q ((λ scene : Z * Z,
                              inject_Z (scene.2 - scene.1) / fps) <$> rest)).
        intros rest_sum. lra.
      + apply Forall_app. split; [done|]. constructor; [|constructor].
        simpl. rewrite Eq. by apply frames_duration.
      + apply Forall_app. split; [done|]. by constructor. }
  destruct (Hloop [] ltac:(constructor) ltac:(constructor))
    as (shots & E & Hd & Hn & Ht).
  destruct (segment_total max_duration Hmax shots) as [segs Hr].
  exists shots, segs.
  destruct (Hr) as [fuel Hf]. specialize (Hf fuel ltac:(done)).
  destruct (segment_conserved max_duration Hmax fuel shots segs Hn Hf)
    as (e & Hc & He).
  exists e. split; [done|]. split; [done|]. split; [done|]. split; [done|].
  rewrite He, Ht. change (total_duration []) with 0. lra.
Qed.

End DetectorClaims.

Section DetectorWitnesses.
Local Open Scope Q_scope.

Lemma build_shots_cover_video_witness :
  ∃ shots,
    _build_shots_from_boundaries [250; 625]%Z 25 826 = Return shots ∧
    start_frame <$> shots = 0%Z :: [250; 625]%Z ∧
    end_frame <$> shots = [250; 625]%Z ++ [(826 - 1)%Z] ∧
    covering 0 shots ∧
    total_duration shots == inject_Z (826 - 1) / 25.
Proof.
  apply (build_shots_cover_video [250; 625]%Z 25 826); [reflexivity|].
  simpl. lia.
Defined.

Lemma build_shots_then_segment_witness :
  ∃ shots segs e,
    _build_shots_from_boundaries [250; 250; 825]%Z 25 826 = Return shots ∧
    returns 30 shots segs ∧
    chain 0 segs e ∧ e == inject_Z (826 - 1) / 25 ∧
    Forall (λ s, s.2 - s.1 <= 30) segs.
Proof.
  apply (build_shots_then_segment [250; 250; 825]%Z 25 826 30);
    [reflexivity|reflexivity|].
  simpl. lia.
Defined.

Lemma batch_shots_then_segment_witness :
  ∃ shots segs e,
    shots_of_scenes 25 [(0, 249); (250, 824)]%Z [] = Return shots ∧
    Forall (λ shot, duration shot = end_time shot - start_time shot) shots ∧
    returns 30 shots segs ∧
    chain 0 segs e ∧
    e == sum_Q ((λ scene, inject_Z (scene.2 - scene.1) / 25)
                <$> [(0, 249); (250, 824)]%Z).
Proof.
  apply (batch_shots_then_segment [(0, 249); (250, 824)]%Z 25 30);
    [reflexivity|reflexivity|].
  repeat constructor; simpl; lia.
Defined.

End DetectorWitnesses.

(** ** The older entry points and the pipeline with its pools *)

#[local] Instance CutResult_eq_dec : EqDecision CutResult.
Proof. solve_decision. Defined.



(** A list sorted by index is determined by its elements when no two of
    them share an index. *)
Lemma sort_by_index_unique (l1 l2 : list dict) :
  NoDup (index_of <$> l1) → l1 ≡ₚ l2 →
  merge_sort index_le l1 = merge_sort index_le l2.
Proof.
  intros Hn Hp. apply (StronglySorted_unique_strong index_le).
  - intros x1 x2 H1 H2 H12 H21. unfold index_le in *.
    rewrite merge_sort_Permutation in H1.
    rewrite merge_sort_Permutation, <- Hp in H2.
    apply list_elem_of_lookup in H1 as [i1 H1].
    apply list_elem_of_lookup in H2 as [i2 H2].
    assert (i1 = i2) as ->; [|congruence].
    apply (NoDup_lookup _ _ _ (index_of x1) Hn).
    + by rewrite list_lookup_fmap, H1.
    + rewrite list_lookup_fmap, H2. simpl. f_equal. lia.
  - apply StronglySorted_merge_sort; apply _.
  - apply StronglySorted_merge_sort; apply _.
  - by rewrite !merge_sort_Permutation.
Qed.

Section LegacyProperties.
Variable subprocess_run : ffmpeg → result CompletedProcess.
Variable open_rb : string → result string.
Variable put_object : string → string → result Z.
Variable bucket_name : string.
Variable as_completed : ∀ A, list A → list A.

Hypothesis as_completed_permutation :
  ∀ A (l : list A), as_completed A l ≡ₚ l.

Local Abbreviation cut := (_cut_single_segment subprocess_run).
Local Abbreviation upload :=
  (_upload_single_segment open_rb put_object bucket_name).
Local Abbreviation cut_result := (cut_outcome subprocess_run).
Local Abbreviation upload_result :=
  (upload_outcome open_rb put_object bucket_name).

Lemma as_completed_outcomes {A B} (f : A → result B) (g : A → B)
    (l : list A) :
  (∀ x, f x = Return (g x)) →
  ∃ ys, as_completed _ (f <$> l) = Return <$> ys ∧ ys ≡ₚ g <$> l.
Proof.
  intros Hf.
  pose proof (as_completed_permutation _ (f <$> l)) as Hp.
  set (rs := as_completed _ (f <$> l)) in *. clearbody rs.
  assert (f <$> l = map Return (g <$> l)) as E.
  { change (map Return (g <$> l)) with (Return <$> (g <$> l)).
    rewrite <- list_fmap_compose. apply list_fmap_ext. intros _ x _. apply Hf. }
  rewrite E in Hp. apply Permutation_map_inv in Hp as (ys & -> & Hp).
  exists ys. split; [done|]. by symmetry.
Qed.



End LegacyProperties.

Section UploadLoop.
Variable open_rb : string → result string.
Variable put_object : string → string → result Z.
Variable bucket_name : string.

Local Abbreviation upload_result :=
  (upload_outcome open_rb put_object bucket_name).
Local Abbreviation entry := (λ (index : Z) (task_id oss_url : string),
  <["index" := VInt index]> (
  <["task_id" := VStr task_id]> (
  <["oss_url" := VStr oss_url]> (∅ : dict)))).
Local Abbreviation body := (λ (results : list dict) (future : result dict),
  result ← future;
  status ← getitem result "status";
  if decide (status = VStr "success") then
    index ← getitem result "index";
    task_id ← getitem result "task_id";
    oss_url ← getitem result "oss_url";
    Return (results ++
            [ <["index" := index]> (
              <["task_id" := task_id]> (
              <["oss_url" := oss_url]> ∅)) ])
  else Return results).

Lemma upload_path_outcome name idx path :
  let task_id := name +:+ "-" +:+ pretty (Z.of_nat idx + 1)%Z in
  let index := (Z.of_nat idx + 1)%Z in
  (∃ oss_url,
     upload_to_oss_from_local open_rb put_object bucket_name (Some path)
       task_id = Return oss_url ∧
     upload_result (upload_path_task name idx path)
     = upload_success index 0 0 task_id oss_url) ∨
  (∃ e,
     upload_to_oss_from_local open_rb put_object bucket_name (Some path)
       task_id = Raise e ∧
     upload_result (upload_path_task name idx path)
     = upload_failed index 0 0 task_id (str_exn e)).
Proof.
  intros task_id index. unfold upload_path_task. fold task_id index.
  destruct (upload_single_segment_cases open_rb put_object bucket_name
              (Some path) task_id index 0 0)
    as (u & E & [(url & Hu & ->)|(e & Hu & ->)]);
    unfold upload_outcome; rewrite E; [left|right]; eauto.
Qed.

Lemma upload_success_inj i1 s1 e1 t1 u1 i2 s2 e2 t2 u2 :
  upload_success i1 s1 e1 t1 u1 = upload_success i2 s2 e2 t2 u2 →
  i1 = i2 ∧ t1 = t2 ∧ u1 = u2.
Proof.
  intros E.
  pose proof (f_equal (λ d : dict, d !! "index") E) as Hi.
  pose proof (f_equal (λ d : dict, d !! "task_id") E) as Ht.
  pose proof (f_equal (λ d : dict, d !! "oss_url") E) as Hu.
  cbv beta in Hi, Ht, Hu.
  change (Some (VInt i1) = Some (VInt i2)) in Hi.
  change (Some (VStr t1) = Some (VStr t2)) in Ht.
  change (Some (VStr u1) = Some (VStr u2)) in Hu.
  by simplify_eq.
Qed.

Lemma upload_success_not_failed i1 s1 e1 t1 u1 i2 s2 e2 t2 err :
  upload_success i1 s1 e1 t1 u1 ≠ upload_failed i2 s2 e2 t2 err.
Proof.
  intros E. pose proof (f_equal (λ d : dict, d !! "status") E) as Hs.
  cbv beta in Hs.
  change (Some (VStr "success") = Some (VStr "failed")) in Hs. done.
Qed.

(** The loop of lines 404-415 over the uploads in the order [ys] in which
    they complete. *)
Lemma upload_segments_loop name (paths : list string) (ys : list dict)
    (acc : list dict) :
  (∀ y, y ∈ ys →
     ∃ idx path, paths !! idx = Some path ∧
                 y = upload_result (upload_path_task name idx path)) →
  ∃ new,
    for_in (Return <$> ys) body acc = Return (acc ++ new) ∧
    index_of <$> new `sublist_of` index_of <$> ys ∧
    ∀ r, r ∈ new ↔
      ∃ index start end_ task_id oss_url,
        upload_success index start end_ task_id oss_url ∈ ys ∧
        r = entry index task_id oss_url.
Proof.
  revert acc. induction ys as [|y ys IH]; intros acc Hys.
  - exists []. rewrite app_nil_r. split; [done|]. split; [done|].
    intros r. split; [by intros ?%elem_of_nil|].
    by intros (? & ? & ? & ? & ? & ?%elem_of_nil & _).
  - destruct (Hys y ltac:(left)) as (idx & path & Hpath & Hy).
    assert (∀ z, z ∈ ys →
      ∃ idx path, paths !! idx = Some path ∧
                  z = upload_result (upload_path_task name idx path)) as Hys'.
    { intros z Hz. apply Hys. by right. }
    rewrite fmap_cons. cbn [for_in].
    destruct (upload_path_outcome name idx path)
      as [(url & _ & Hu)|(err & _ & Hu)]; rewrite <- Hy in Hu.
    + assert (body acc (Return y)
              = Return (acc ++ [entry (Z.of_nat idx + 1)%Z
                                  (name +:+ "-" +:+
                                     pretty (Z.of_nat idx + 1)%Z) url]))
        as -> by (by rewrite Hu).
      cbn [mbind result_bind].
      destruct (IH (acc ++ [entry (Z.of_nat idx + 1)%Z
                              (name +:+ "-" +:+ pretty (Z.of_nat idx + 1)%Z)
                              url]) Hys')
        as (new & -> & Hsub & Hnew).
      eexists (_ :: new). split; [by rewrite <- app_assoc|]. split.
      * rewrite !fmap_cons, Hu. by apply sublist_skip.
      * intros r. rewrite elem_of_cons, Hnew. split.
        -- intros [->|(i & s & e & t & u & Hin & ->)].
           ++ do 5 eexists.
              split; [apply elem_of_cons; left; symmetry; exact Hu|done].
           ++ do 5 eexists. split; [right; exact Hin|done].
        -- intros (i & s & e & t & u & Hin & ->).
           apply elem_of_cons in Hin as [Hin|Hin].
           ++ left. rewrite Hu in Hin.
              apply upload_success_inj in Hin as (-> & -> & ->). done.
           ++ right. by do 5 eexists.
    + assert (body acc (Return y) = Return acc) as -> by (by rewrite Hu).
      cbn [mbind result_bind].
      destruct (IH acc Hys') as (new & -> & Hsub & Hnew).
      exists new. split; [done|]. split.
      * rewrite fmap_cons. by apply sublist_cons.
      * intros r. rewrite Hnew. split.
        -- intros (i & s & e & t & u & Hin & ->).
           do 5 eexists. split; [right; exact Hin|done].
        -- intros (i & s & e & t & u & Hin & ->).
           apply elem_of_cons in Hin as [Hin|Hin].
           ++ rewrite Hu in Hin. by apply upload_success_not_failed in Hin.
           ++ by do 5 eexists.
Qed.

Lemma upload_path_indices name (paths : list string) :
  NoDup (index_of <$>
           (upload_result <$> imap (upload_path_task name) paths)).
Proof.
  rewrite <- list_fmap_compose, fmap_imap.
  rewrite (imap_ext _ (λ j _, (Z.of_nat j + 1)%Z)).
  - rewrite imap_seq_0. apply NoDup_fmap_2; [|apply NoDup_seq].
    intros j j' Hj. lia.
  - intros j path _. simpl.
    destruct (upload_path_outcome name j path)
      as [(url & _ & ->)|(e & _ & ->)]; done.
Qed.

End UploadLoop.



Lemma cut_and_upload_members
    (subprocess_run : ffmpeg → result CompletedProcess)
    (open_rb : string → result string)
    (put_object : string → string → result Z)
    (bucket_name temp_dir : string)
    (as_completed : ∀ A, list A → list A)
    (video_path : string) (segments : list (Q * Q)) (name : string) :
  (∀ A (l : list A), as_completed A l ≡ₚ l) →
  ∃ final,
    cut_and_upload subprocess_run open_rb put_object bucket_name temp_dir
      as_completed video_path segments name = Return final ∧
    ∀ r, r ∈ final ↔
      ∃ idx start end_ p oss_url,
        let index := (Z.of_nat idx + 1)%Z in
        let output_path :=
          path_join temp_dir ("segment_" +:+ pretty index +:+ ".mp4") in
        let task_id := name +:+ "-" +:+ pretty index in
        segments !! idx = Some (start, end_) ∧
        subprocess_run {| ss := start; t := (end_ - start)%Q;
                          input := video_path; output := output_path |}
          = Return p ∧
        returncode p = 0%Z ∧
        upload_to_oss_from_local open_rb put_object bucket_name
          (Some output_path) task_id = Return oss_url ∧
        r = <["index" := VInt index]> (
            <["start" := VFloat (round1 start)]> (
            <["end" := VFloat (round1 end_)]> (
            <["duration" := VFloat (round1 (end_ - start))]> (
            <["task_id" := VStr task_id]> (
            <["oss_url" := VStr oss_url]> ∅))))).
Proof.
  intros Hperm.
  destruct (cut_and_upload_returns subprocess_run open_rb put_object
              bucket_name temp_dir as_completed Hperm video_path segments
              name) as (cuts & uploads & Hc & Hu & ->).
  eexists. split; [done|]. intros r.
  pose proof (uploads_membership subprocess_run open_rb put_object
                bucket_name temp_dir video_path name segments cuts uploads
                Hc Hu) as Hmem.
  rewrite list_elem_of_fmap.
  setoid_rewrite merge_sort_Permutation.
  setoid_rewrite list_elem_of_filter. setoid_rewrite Hmem.
  assert (∀ idx start end_,
    let index := (Z.of_nat idx + 1)%Z in
    let output_path :=
      path_join temp_dir ("segment_" +:+ pretty index +:+ ".mp4") in
    let c := cut_outcome subprocess_run
               (cut_task temp_dir video_path idx (start, end_)) in
    cut_index c = index ∧ cut_start c = start ∧ cut_end c = end_ ∧
    ((cut_status c = "success" ∧ cut_path c = Some output_path ∧
      ∃ p, subprocess_run {| ss := start; t := (end_ - start)%Q;
                             input := video_path; output := output_path |}
           = Return p ∧ returncode p = 0%Z) ∨
     (cut_status c = "failed" ∧
      ¬ ∃ p, subprocess_run {| ss := start; t := (end_ - start)%Q;
                               input := video_path; output := output_path |}
             = Return p ∧ returncode p = 0%Z))) as Hcut.
  { intros idx start end_ index output_path c.
    destruct (cut_single_segment_cases subprocess_run video_path start end_
                output_path index) as (c' & E & Hi & Hs & He & Hcases).
    assert (c = c') as ->.
    { unfold c, cut_outcome, cut_task. fold index output_path.
      by rewrite E. }
    repeat split; [done..|].
    destruct Hcases as [(? & ? & ?)|(? & _ & _ & ?)]; [left|right]; done. }
  split.
  - intros (u & -> & Hok & idx & [start end_] & Hseg & Hs & ->).
    destruct (Hcut idx start end_) as (Hi & Hst & Hen & Hcases).
    destruct Hcases as [(_ & Hpath & p & Hp & Hrc)|(Hf & _)];
      [|by rewrite Hf in Hs].
    revert Hok. unfold upload_outcome, upload_task.
    rewrite Hi, Hst, Hen, Hpath.
    destruct (upload_single_segment_cases open_rb put_object bucket_name
                (Some (path_join temp_dir
                   ("segment_" +:+ pretty (Z.of_nat idx + 1)%Z +:+ ".mp4")))
                (name +:+ "-" +:+ pretty (Z.of_nat idx + 1)%Z)
                (Z.of_nat idx + 1) start end_)
      as (u & -> & [(url & Hup & ->)|(e & _ & ->)]); [|done].
    intros _. by exists idx, start, end_, p, url.
  - intros (idx & start & end_ & p & url & Hseg & Hp & Hrc & Hup & ->).
    destruct (Hcut idx start end_) as (Hi & Hst & Hen & Hcases).
    destruct Hcases as [(Hs & Hpath & _)|(_ & Hn)];
      [|exfalso; apply Hn; by exists p].
    exists (upload_success (Z.of_nat idx + 1) start end_
              (name +:+ "-" +:+ pretty (Z.of_nat idx + 1)%Z) url).
    split; [done|]. split; [done|].
    exists idx, (start, end_). split; [done|]. split; [done|].
    unfold upload_outcome, upload_task. rewrite Hi, Hst, Hen, Hpath.
    destruct (upload_single_segment_cases open_rb put_object bucket_name
                (Some (path_join temp_dir
                   ("segment_" +:+ pretty (Z.of_nat idx + 1)%Z +:+ ".mp4")))
                (name +:+ "-" +:+ pretty (Z.of_nat idx + 1)%Z)
                (Z.of_nat idx + 1) start end_)
      as (u & -> & [(url' & Hup' & ->)|(e & Hup' & _)]); [|congruence].
    rewrite Hup in Hup'. by injection Hup' as <-.
Qed.

Section LegacyClaims.


(** X15. [upload_segments].  When the thread pool can be taken,
    [upload_segments] returns a list that is strictly increasing by
    index and holds one entry for each path whose upload returned, and no
    other: the entry of the path at position [idx] has the three keys
    index, task_id and oss_url, with the index [idx + 1], the task
    [name-(idx+1)] and what the uploader returned. *)
Theorem upload_segments_entries
    (open_rb : string → result string)
    (put_object : string → string → result Z)
    (bucket_name : string)
    (as_completed : ∀ A, list A → list A)
    (m m' : module_state) (pool : nat)
    (segment_paths : list string) (name : string) :
  (∀ A (l : list A), as_completed A l ≡ₚ l) →
  _get_thread_pool m = Return (pool, m') →
  ∃ results,
    upload_segments open_rb put_object bucket_name as_completed m
      segment_paths name = (Return results, m') ∧
    StronglySorted Z.lt (index_of <$> results) ∧
    ∀ r, r ∈ results ↔
      ∃ idx path oss_url,
        segment_paths !! idx = Some path ∧
        upload_to_oss_from_local open_rb put_object bucket_name (Some path)
          (name +:+ "-" +:+ pretty (Z.of_nat idx + 1)%Z) = Return oss_url ∧
        r = <["index" := VInt (Z.of_nat idx + 1)]> (
            <["task_id" := VStr (name +:+ "-" +:+
                                   pretty (Z.of_nat idx + 1)%Z)]> (
            <["oss_url" := VStr oss_url]> ∅)).
Proof.
  intros Hperm Hpool. unfold upload_segments. rewrite Hpool.
  destruct (as_completed_outcomes as_completed Hperm
              (_upload_single_segment open_rb put_object bucket_name)
              (upload_outcome open_rb put_object bucket_name)
              (imap (upload_path_task name) segment_paths)
              (upload_outcome_eq open_rb put_object bucket_name))
    as (ys & -> & Hys).
  assert (∀ y, y ∈ ys ↔
    ∃ idx path, segment_paths !! idx = Some path ∧
      y = upload_outcome open_rb put_object bucket_name
            (upload_path_task name idx path)) as Hmem.
  { intros y. rewrite Hys, list_elem_of_fmap. split.
    - intros (task & -> & (idx & path & -> & Hp)%elem_of_lookup_imap).
      by exists idx, path.
    - intros (idx & path & Hp & ->). eexists. split; [done|].
      by apply elem_of_lookup_imap_2. }
  destruct (upload_segments_loop open_rb put_object bucket_name name
              segment_paths ys []) as (new & -> & Hsub & Hnew).
  { intros y Hy. by apply Hmem. }
  cbn [mbind result_bind app]. eexists. split; [done|]. split.
  - apply strictly_sorted.
    + apply (StronglySorted_fmap _ index_le); [done|].
      apply StronglySorted_merge_sort; apply _.
    + rewrite merge_sort_Permutation.
      eapply sublist_NoDup; [|exact Hsub]. rewrite Hys.
      apply upload_path_indices.
  - intros r. rewrite merge_sort_Permutation, Hnew. split.
    + intros (i & s & e & t & u & Hin & ->).
      apply Hmem in Hin as (idx & path & Hp & Hu).
      destruct (upload_path_outcome open_rb put_object bucket_name name idx
                  path) as [(url & Hup & E)|(err & _ & E)];
        rewrite E in Hu.
      * apply upload_success_inj in Hu as (-> & -> & ->).
        by exists idx, path, url.
      * by apply upload_success_not_failed in Hu.
    + intros (idx & path & url & Hp & Hup & ->).
      do 5 eexists. split; [|done]. apply Hmem. exists idx, path.
      split; [done|].
      destruct (upload_path_outcome open_rb put_object bucket_name name idx
                  path) as [(url' & Hup' & E)|(err & Hup' & _)].
      * rewrite Hup in Hup'. injection Hup' as <-. symmetry. exact E.
      * congruence.
Qed.

(** X16. The order of completion does not show.  Two runs of [cut_and_upload]
    on the same input whose futures complete in different orders return
    the same list. *)
Theorem cut_and_upload_order_independent
    (subprocess_run : ffmpeg → result CompletedProcess)
    (open_rb : string → result string)
    (put_object : string → string → result Z)
    (bucket_name temp_dir : string)
    (as_completed as_completed' : ∀ A, list A → list A)
    (video_path : string) (segments : list (Q * Q)) (name : string) :
  (∀ A (l : list A), as_completed A l ≡ₚ l) →
  (∀ A (l : list A), as_completed' A l ≡ₚ l) →
  cut_and_upload subprocess_run open_rb put_object bucket_name temp_dir
    as_completed video_path segments name
  = cut_and_upload subprocess_run open_rb put_object bucket_name temp_dir
      as_completed' video_path segments name.
Proof.
  intros Hperm Hperm'.
  destruct (cut_and_upload_returns subprocess_run open_rb put_object
              bucket_name temp_dir as_completed Hperm video_path segments
              name) as (cuts & uploads & Hc & Hu & ->).
  destruct (cut_and_upload_returns subprocess_run open_rb put_object
              bucket_name temp_dir as_completed' Hperm' video_path segments
              name) as (cuts' & uploads' & Hc' & Hu' & ->).
  do 2 f_equal. apply sort_by_index_unique.
  - eapply sublist_NoDup; [|apply fmap_sublist, sublist_filter].
    exact (uploads_indices subprocess_run open_rb put_object
             bucket_name temp_dir video_path name segments cuts uploads
             Hc Hu).
  - apply filter_Permutation. rewrite Hu, Hu'.
    do 2 apply fmap_Permutation. apply filter_Permutation.
    by rewrite Hc, Hc'.
Qed.



End LegacyClaims.

Section LegacyWitnesses.
Local Open Scope Q_scope.


Lemma upload_segments_entries_witness :
  ∃ results,
    upload_segments readable third_put_raises "bucket" last_first
      (import_module (Some 8%Z) None) ["a.mp4"; "b.mp4"; "c.mp4"] "clip"
    = (Return results,
       run_call GetThreadPool (import_module (Some 8%Z) None)) ∧
    StronglySorted Z.lt (index_of <$> results) ∧
    ∀ r, r ∈ results ↔
      ∃ idx path oss_url,
        ["a.mp4"; "b.mp4"; "c.mp4"] !! idx = Some path ∧
        upload_to_oss_from_local readable third_put_raises "bucket"
          (Some path) ("clip" +:+ "-" +:+ pretty (Z.of_nat idx + 1)%Z)
        = Return oss_url ∧
        r = <["index" := VInt (Z.of_nat idx + 1)]> (
            <["task_id" := VStr ("clip" +:+ "-" +:+
                                   pretty (Z.of_nat idx + 1)%Z)]> (
            <["oss_url" := VStr oss_url]> ∅)).
Proof.
  apply (upload_segments_entries readable third_put_raises "bucket"
           last_first (import_module (Some 8%Z) None)
           (run_call GetThreadPool (import_module (Some 8%Z) None)) 0%nat).
  - intros A l. symmetry. apply Permutation_rev.
  - reflexivity.
Defined.

Lemma cut_and_upload_order_independent_witness :
  cut_and_upload second_cut_fails readable third_put_raises "bucket"
    "/tmp/shotcutter_a" last_first "video.mp4"
    [(0, 25); (25, 33); (33, 63)] "clip"
  = cut_and_upload second_cut_fails readable third_put_raises "bucket"
      "/tmp/shotcutter_a" (λ A l, l) "video.mp4"
      [(0, 25); (25, 33); (33, 63)] "clip".
Proof.
  apply cut_and_upload_order_independent.
  - intros A l. symmetry. apply Permutation_rev.
  - reflexivity.
Defined.


End LegacyWitnesses.

(** ** The name of the uploaded object *)

Section ObjectKey.

Lemma append_assoc (a b c : string) : (a +:+ b) +:+ c = a +:+ b +:+ c.
Proof.
  induction a as [|x a IH]; [done|].
  change (String x ((a +:+ b) +:+ c) = String x (a +:+ b +:+ c)).
  by rewrite IH.
Qed.

Lemma has_slash_app (a b : string) :
  has_slash (a +:+ b) = has_slash a || has_slash b.
Proof.
  induction a as [|c a IH]; [done|]. simpl. rewrite IH.
  by rewrite orb_assoc.
Qed.

Lemma basename_no_slash (b : string) : has_slash b = false → basename b = b.
Proof. destruct b as [|c b]; [done|]. cbn [basename]. by intros ->. Qed.

Lemma basename_after_slash (q b : string) :
  has_slash b = false → basename (q +:+ "/" +:+ b) = b.
Proof.
  intros Hb. induction q as [|c q IH].
  - change ("" +:+ "/" +:+ b) with (String "/" b). cbn [basename].
    change (has_slash (String "/" b)) with true. cbv iota.
    by apply basename_no_slash.
  - change (String c q +:+ "/" +:+ b) with (String c (q +:+ "/" +:+ b)).
    cbn [basename].
    replace (has_slash (String c (q +:+ "/" +:+ b))) with true; [done|].
    cbn [has_slash]. rewrite has_slash_app.
    change (has_slash ("/" +:+ b)) with true.
    by rewrite orb_true_r, orb_true_r.
Qed.

Lemma rev_app_last (s1 s2 : string) (c : Ascii.ascii) (r : string) :
  String.rev_app s1 s2 = String c r →
  (s1 = "" ∧ s2 = String c r) ∨ ∃ q, s1 = q +:+ String c "".
Proof.
  revert s2. induction s1 as [|a s1 IH]; intros s2; simpl.
  - intros ->. by left.
  - intros [[-> [= -> ->]]|[q ->]]%IH; right.
    + by exists "".
    + by exists (String a q).
Qed.

Lemma path_join_cases (a b : string) :
  path_join a b = b ∨ ∃ q, path_join a b = q +:+ "/" +:+ b.
Proof.
  unfold path_join. destruct (String.rev a) as [|c r] eqn:E; [by left|].
  right. destruct (decide (c = "/"%char)) as [->|Hc].
  - apply rev_app_last in E as [[_ [=]]|[q ->]]. exists q.
    apply append_assoc.
  - exists a.
    destruct c as [[] [] [] [] [] [] [] []]; try done.
Qed.

Lemma from_last_dot_app (x y ext : string) :
  from_last_dot y = Some ext → from_last_dot (x +:+ y) = Some ext.
Proof. intros Hy. induction x as [|c x IH]; [done|]. simpl. by rewrite IH. Qed.

Lemma digit_not_slash (d : N) :
  (d < 10)%N → Ascii.eqb (pretty_N_char d) "/" = false.
Proof.
  intros Hd.
  assert (d = 0 ∨ d = 1 ∨ d = 2 ∨ d = 3 ∨ d = 4 ∨ d = 5 ∨ d = 6 ∨ d = 7
          ∨ d = 8 ∨ d = 9)%N as Hc by lia.
  repeat (destruct Hc as [->|Hc]; [by vm_compute|]). subst. by vm_compute.
Qed.

Lemma pretty_go_no_slash (x : N) (s : string) :
  has_slash s = false → has_slash (pretty_N_go x s) = false.
Proof.
  revert s. induction (N.lt_wf_0 x) as [x _ IH]; intros s Hs.
  destruct (decide (x = 0)%N) as [->|Hx]; [done|].
  rewrite pretty_N_go_step by lia.
  apply IH; [apply N.div_lt; lia|]. simpl.
  rewrite digit_not_slash by (by apply N.mod_lt). done.
Qed.

Lemma pretty_no_slash (z : Z) : has_slash (pretty z) = false.
Proof.
  destruct z as [|p|p]; [done|..].
  - by apply (pretty_go_no_slash (N.pos p)).
  - unfold pretty, pretty_Z. simpl.
    by apply (pretty_go_no_slash (N.pos p)).
Qed.

(** The files that the pipeline cuts all have the extension [.mp4],
    whatever the scratch directory is called. *)
Lemma splitext_segment (temp_dir : string) (index : Z) :
  splitext_ext (path_join temp_dir ("segment_" +:+ pretty index +:+ ".mp4"))
  = ".mp4".
Proof.
  set (file := "segment_" +:+ pretty index +:+ ".mp4").
  assert (has_slash file = false) as Hfile.
  { unfold file. rewrite !has_slash_app, pretty_no_slash. done. }
  assert (basename (path_join temp_dir file) = file) as Hbase.
  { destruct (path_join_cases temp_dir file) as [->|[q ->]].
    - by apply basename_no_slash.
    - by apply basename_after_slash. }
  unfold splitext_ext. rewrite Hbase.
  change (skip_dots file) with file. unfold file.
  by rewrite (from_last_dot_app "segment_" _ ".mp4")
    by (by apply from_last_dot_app).
Qed.

End ObjectKey.

Section ObjectKeyClaims.

(** X19. The uploaded objects.  Every entry that [cut_and_upload] returns
    stands for an object that was put under the key [name-index.mp4] with
    the content of the cut file: its task is [name-index], and its
    [oss_url] is the address of that key in the bucket when the store
    answered with status 200, and the status in decimal otherwise. *)
Theorem cut_and_upload_urls
    (subprocess_run : ffmpeg → result CompletedProcess)
    (open_rb : string → result string)
    (put_object : string → string → result Z)
    (bucket_name temp_dir : string)
    (as_completed : ∀ A, list A → list A)
    (video_path : string) (segments : list (Q * Q)) (name : string) :
  (∀ A (l : list A), as_completed A l ≡ₚ l) →
  ∃ final,
    cut_and_upload subprocess_run open_rb put_object bucket_name temp_dir
      as_completed video_path segments name = Return final ∧
    Forall (λ r : dict,
      ∃ index content status,
        let object_key := (name +:+ "-" +:+ pretty index) +:+ ".mp4" in
        r !! "index" = Some (VInt index) ∧
        r !! "task_id" = Some (VStr (name +:+ "-" +:+ pretty index)) ∧
        open_rb (path_join temp_dir
                   ("segment_" +:+ pretty index +:+ ".mp4"))
          = Return content ∧
        put_object object_key content = Return status ∧
        r !! "oss_url"
        = Some (VStr (if (status =? 200)%Z
                      then "https://" +:+ bucket_name +:+
                           ".oss-cn-hangzhou.aliyuncs.com/" +:+ object_key
                      else pretty status))) final.
Proof.
  intros Hperm.
  destruct (cut_and_upload_members subprocess_run open_rb put_object
              bucket_name temp_dir as_completed video_path segments name
              Hperm) as (final & E & Hmem).
  exists final. split; [done|]. apply Forall_forall. intros r Hr.
  apply Hmem in Hr
    as (idx & start & end_ & p & url & Hseg & _ & _ & Hup & ->).
  revert Hup. unfold upload_to_oss_from_local.
  rewrite splitext_segment.
  destruct (open_rb _) as [content|e] eqn:Eo; [|done]. simpl.
  destruct (put_object _ content) as [status|e] eqn:Ep; [|done]. simpl.
  intros Hurl. exists (Z.of_nat idx + 1)%Z, content, status.
  split; [done|]. split; [done|]. split; [done|]. split; [done|].
  destruct (status =? 200)%Z; by injection Hurl as <-.
Qed.

Lemma cut_and_upload_urls_witness :
  ∃ final,
    cut_and_upload second_cut_fails readable third_put_raises "bucket"
      "/tmp/shotcutter_a" last_first "video.mp4"
      [(0, 25); (25, 33); (33, 63)]%Q "clip" = Return final ∧
    Forall (λ r : dict,
      ∃ index content status,
        let object_key := ("clip" +:+ "-" +:+ pretty index) +:+ ".mp4" in
        r !! "index" = Some (VInt index) ∧
        r !! "task_id" = Some (VStr ("clip" +:+ "-" +:+ pretty index)) ∧
        readable (path_join "/tmp/shotcutter_a"
                    ("segment_" +:+ pretty index +:+ ".mp4"))
          = Return content ∧
        third_put_raises object_key content = Return status ∧
        r !! "oss_url"
        = Some (VStr (if (status =? 200)%Z
                      then "https://" +:+ "bucket" +:+
                           ".oss-cn-hangzhou.aliyuncs.com/" +:+ object_key
                      else pretty status))) final.
Proof.
  apply cut_and_upload_urls.
  intros A l. symmetry. apply Permutation_rev.
Defined.

End ObjectKeyClaims.

(** ** The entry points of the package *)

Lemma sorted_indices_count (l : list Z) (lo n : Z) :
  StronglySorted Z.lt l → Forall (λ i, lo ≤ i ≤ n)%Z l →
  (Z.of_nat (length l) ≤ Z.max 0 (n - lo + 1))%Z.
Proof.
  intros Hs. revert lo. induction Hs as [|x l Hs IH Hx]; intros lo Hl.
  - simpl. lia.
  - apply Forall_cons in Hl as [Hxr Hl].
    assert (Forall (λ i, x + 1 ≤ i ≤ n)%Z l) as Hl'.
    { rewrite Forall_forall in Hx, Hl |- *. intros i Hi.
      specialize (Hx i Hi). specialize (Hl i Hi). lia. }
    specialize (IH _ Hl'). simpl length. lia.
Qed.

Section EntryPointProperties.
Variable subprocess_run : ffmpeg → result CompletedProcess.
Variable open_rb : string → result string.
Variable put_object : string → string → result Z.
Variable bucket_name : string.
Variable temp_dir : string.
Variable as_completed : ∀ A, list A → list A.

Hypothesis as_completed_permutation :
  ∀ A (l : list A), as_completed A l ≡ₚ l.

Local Abbreviation pipeline :=
  (cut_and_upload subprocess_run open_rb put_object bucket_name temp_dir
     as_completed).
Local Abbreviation pooled :=
  (cut_and_upload_pooled subprocess_run open_rb put_object bucket_name
     temp_dir as_completed).

(** What the pipeline returns is strictly increasing by index, and its
    indices are positions of the segments, counted from 1. *)
Lemma cut_and_upload_indices video_path segments name final :
  pipeline video_path segments name = Return final →
  StronglySorted Z.lt (index_of <$> final) ∧
  Forall (λ r, 1 ≤ index_of r ≤ Z.of_nat (length segments))%Z final.
Proof.
  intros E.
  destruct (cut_and_upload_returns subprocess_run open_rb put_object
              bucket_name temp_dir as_completed as_completed_permutation
              video_path segments name) as (cuts & uploads & Hc & Hu & E').
  rewrite E in E'. injection E' as ->.
  set (ok := λ r : dict, r !! "status" = Some (VStr "success")).
  set (sorted := merge_sort index_le (filter ok uploads)).
  assert (index_of <$> (delete "status" <$> sorted) = index_of <$> sorted)
    as Hidx.
  { rewrite <- list_fmap_compose. apply list_fmap_ext.
    intros _ r _. apply index_of_delete_status. }
  split.
  - rewrite Hidx. apply strictly_sorted.
    + apply (StronglySorted_fmap _ index_le); [done|].
      apply StronglySorted_merge_sort; apply _.
    + unfold sorted. rewrite merge_sort_Permutation.
      eapply sublist_NoDup; [|apply fmap_sublist, sublist_filter].
      exact (uploads_indices subprocess_run open_rb put_object
               bucket_name temp_dir video_path name segments cuts uploads
               Hc Hu).
  - apply Forall_fmap, Forall_forall. intros r Hr. simpl.
    rewrite index_of_delete_status.
    unfold sorted in Hr. rewrite merge_sort_Permutation in Hr.
    apply list_elem_of_filter in Hr as [_ Hr].
    apply (uploads_membership subprocess_run open_rb put_object
             bucket_name temp_dir video_path name segments cuts uploads
             Hc Hu) in Hr as (idx & seg & Hseg & _ & ->).
    rewrite upload_outcome_index, cut_outcome_index.
    apply lookup_lt_Some in Hseg. lia.
Qed.

Lemma cut_and_upload_pooled_cases m video_path segments name :
  (∃ e, (pooled m video_path segments name).1 = Raise e) ∨
  (pooled m video_path segments name).1 = pipeline video_path segments name.
Proof.
  unfold cut_and_upload_pooled.
  destruct (_get_process_pool m) as [[p m1]|e]; [|left; by exists e].
  destruct (_get_thread_pool m1) as [[t m2]|e]; [|left; by exists e].
  by right.
Qed.

End EntryPointProperties.

Ltac stats_keys :=
  apply elem_of_subseteq;
  intros k [->%elem_of_singleton| ->%elem_of_singleton]%elem_of_union;
  apply elem_of_dom; by eexists.

Section EntryPointClaims.
Local Open Scope Q_scope.

(** X20. [process_video] reports, it does not raise.  Once the path is
    resolved and for a positive [max_duration], [process_video] returns a
    dict whatever the detector, the tools and the store do, and hands the
    local file to [cleanup_temp_file] exactly when it is not the path that
    was given.  In the dict, ["total"] is the number of segments,
    [time_stats] holds at least the download and the total time, and the
    status is either success, without a reason and with segments strictly
    increasing by index, or failure, with a reason and no segment. *)
Theorem process_video_reports
    (subprocess_run : ffmpeg → result CompletedProcess)
    (open_rb : string → result string)
    (put_object : string → string → result Z)
    (bucket_name temp_dir : string)
    (as_completed : ∀ A, list A → list A)
    (handle_video_path : string → result string)
    (detect_shots : string → result (list (Shot Q)))
    (time : nat → Q) (m : module_state)
    (video_path local_path name : string) (max_duration : Q) :
  (∀ A (l : list A), as_completed A l ≡ₚ l) →
  0 < max_duration →
  handle_video_path video_path = Return local_path →
  ∃ r,
    (∃ fuel0, ∀ fuel, (fuel0 ≤ fuel)%nat →
       process_video subprocess_run open_rb put_object bucket_name temp_dir
         as_completed handle_video_path detect_shots time fuel m video_path
         name max_duration
       = Some (Return r,
               if bool_decide (local_path ≠ video_path)
               then [local_path] else [])) ∧
    process_total r = Z.of_nat (length (process_segments r)) ∧
    {[ "download"; "total" ]} ⊆ dom (process_time_stats r) ∧
    ((process_status r = "success" ∧ process_reason r = None ∧
      StronglySorted Z.lt (index_of <$> process_segments r)) ∨
     (process_status r = "failure" ∧ is_Some (process_reason r) ∧
      process_segments r = [])).
Proof.
  intros Hperm Hmax Hpath. unfold process_video. rewrite Hpath.
  destruct (detect_shots local_path) as [shots|e].
  2:{ eexists. split; [by exists 0%nat|]. simpl.
      split; [done|]. split; [stats_keys|]. right. by eauto. }
  destruct (segment_total max_duration Hmax shots) as (segs & fuel0 & Hf).
  destruct segs as [|seg segs].
  { eexists. split.
    - exists fuel0. intros fuel Hfuel. by rewrite (Hf fuel Hfuel).
    - simpl. split; [done|]. split; [stats_keys|]. right. by eauto. }
  destruct (cut_and_upload_pooled subprocess_run open_rb put_object
              bucket_name temp_dir as_completed m local_path (seg :: segs)
              name).1 as [results|e] eqn:E.
  - eexists. split.
    + exists fuel0. intros fuel Hfuel. by rewrite (Hf fuel Hfuel), E.
    + simpl. split; [done|]. split; [stats_keys|]. left.
      split; [done|]. split; [done|].
      destruct (cut_and_upload_pooled_cases subprocess_run open_rb
                  put_object bucket_name temp_dir as_completed m local_path
                  (seg :: segs) name) as [[e He]|Hp]; [congruence|].
      rewrite E in Hp. symmetry in Hp.
      by destruct (cut_and_upload_indices subprocess_run open_rb put_object
                     bucket_name temp_dir as_completed Hperm local_path
                     (seg :: segs) name results Hp).
  - eexists. split.
    + exists fuel0. intros fuel Hfuel. by rewrite (Hf fuel Hfuel), E.
    + simpl. split; [done|]. split; [stats_keys|]. right. by eauto.
Qed.


End EntryPointClaims.

Section EntryPointRelations.
Local Open Scope Q_scope.

(** X22. The two entry points agree.  When [segment_video] returns [segs] for a
    video, [process_video] on the same video returns a dict, cleans up the
    same file, and its segments are at most as many as [segs], each with
    an index between 1 and the length of [segs]. *)
Theorem process_video_within_segment_video
    (subprocess_run : ffmpeg → result CompletedProcess)
    (open_rb : string → result string)
    (put_object : string → string → result Z)
    (bucket_name temp_dir : string)
    (as_completed : ∀ A, list A → list A)
    (handle_video_path : string → result string)
    (detect_shots : string → result (list (Shot Q)))
    (time : nat → Q) (m : module_state)
    (video_path name : string) (max_duration : Q) (fuel : nat)
    (segs : list (Q * Q)) (cleaned : list string) :
  (∀ A (l : list A), as_completed A l ≡ₚ l) →
  segment_video handle_video_path detect_shots fuel video_path max_duration
  = Some (Return segs, cleaned) →
  ∃ r,
    process_video subprocess_run open_rb put_object bucket_name temp_dir
      as_completed handle_video_path detect_shots time fuel m video_path
      name max_duration
    = Some (Return r, cleaned) ∧
    Forall (λ entry, 1 ≤ index_of entry ≤ Z.of_nat (length segs))%Z
      (process_segments r) ∧
    (process_total r ≤ Z.of_nat (length segs))%Z.
Proof.
  intros Hperm. unfold segment_video, process_video.
  destruct (handle_video_path video_path) as [local_path|e]; [|done].
  destruct (detect_shots local_path) as [shots|e]; [|done].
  destruct (segment max_duration fuel shots) as [segs'|]; [|done].
  intros [= -> <-].
  destruct segs as [|seg segs].
  { eexists. split; [done|]. simpl. split; [constructor|lia]. }
  destruct (cut_and_upload_pooled subprocess_run open_rb put_object
              bucket_name temp_dir as_completed m local_path (seg :: segs)
              name).1 as [results|e] eqn:E.
  - eexists. split; [done|]. cbn [process_segments process_total].
    destruct (cut_and_upload_pooled_cases subprocess_run open_rb
                put_object bucket_name temp_dir as_completed m local_path
                (seg :: segs) name) as [[e He]|Hp]; [congruence|].
    rewrite E in Hp. symmetry in Hp.
    destruct (cut_and_upload_indices subprocess_run open_rb put_object
                bucket_name temp_dir as_completed Hperm local_path
                (seg :: segs) name results Hp) as [Hs Hr].
    split; [done|].
    pose proof (sorted_indices_count (index_of <$> results) 1
                  (Z.of_nat (length (seg :: segs))) Hs) as Hcount.
    rewrite length_fmap in Hcount.
    assert (Forall (λ i, 1 ≤ i ≤ Z.of_nat (length (seg :: segs)))%Z
              (index_of <$> results)) as Hr'
      by (by apply Forall_fmap).
    specialize (Hcount Hr'). lia.
  - eexists. split; [done|]. simpl. split; [constructor|lia].
Qed.

(** X23. A [max_duration] that is not positive.  When the detector returns
    shots whose first has a positive duration and [max_duration] is zero
    or negative, neither [segment_video] nor [process_video] returns: no
    bound on the iterations of the segmenter gives a result. *)
Theorem entry_points_hang
    (subprocess_run : ffmpeg → result CompletedProcess)
    (open_rb : string → result string)
    (put_object : string → string → result Z)
    (bucket_name temp_dir : string)
    (as_completed : ∀ A, list A → list A)
    (handle_video_path : string → result string)
    (detect_shots : string → result (list (Shot Q)))
    (time : nat → Q) (m : module_state)
    (video_path local_path name : string) (max_duration : Q)
    (shot : Shot Q) (rest : list (Shot Q)) (fuel : nat) :
  max_duration <= 0 → 0 < duration shot →
  handle_video_path video_path = Return local_path →
  detect_shots local_path = Return (shot :: rest) →
  segment_video handle_video_path detect_shots fuel video_path max_duration
  = None ∧
  process_video subprocess_run open_rb put_object bucket_name temp_dir
    as_completed handle_video_path detect_shots time fuel m video_path
    name max_duration
  = None.
Proof.
  intros Hmax Hd Hpath Hdet. unfold segment_video, process_video.
  rewrite Hpath, Hdet.
  by rewrite (segment_first_shot_diverges max_duration shot rest fuel Hmax Hd).
Qed.

End EntryPointRelations.

Section EntryPointWitnesses.
Local Open Scope Q_scope.

Lemma process_video_reports_witness :
  ∃ r,
    (∃ fuel0, ∀ fuel, (fuel0 ≤ fuel)%nat →
       process_video second_cut_fails readable third_put_raises "bucket"
         "/tmp/shotcutter_a" last_first
         (λ _, Return "/tmp/shotcutter_download.mp4")
         (λ _, Return scenario_shots) (λ n, inject_Z (Z.of_nat n)) fuel
         (import_module (Some 8%Z) None) "https://host/video.mp4" "clip" 30
       = Some (Return r,
               if bool_decide ("/tmp/shotcutter_download.mp4"
                               ≠ "https://host/video.mp4")
               then ["/tmp/shotcutter_download.mp4"] else [])) ∧
    process_total r = Z.of_nat (length (process_segments r)) ∧
    {[ "download"; "total" ]} ⊆ dom (process_time_stats r) ∧
    ((process_status r = "success" ∧ process_reason r = None ∧
      StronglySorted Z.lt (index_of <$> process_segments r)) ∨
     (process_status r = "failure" ∧ is_Some (process_reason r) ∧
      process_segments r = [])).
Proof.
  apply process_video_reports.
  - intros A l. symmetry. apply Permutation_rev.
  - reflexivity.
  - reflexivity.
Defined.


Lemma process_video_within_segment_video_witness :
  ∃ r,
    process_video second_cut_fails readable third_put_raises "bucket"
      "/tmp/shotcutter_a" last_first (λ path, Return path)
      (λ _, Return scenario_shots) (λ n, inject_Z (Z.of_nat n)) 7
      (import_module (Some 8%Z) None) "video.mp4" "clip" 30
    = Some (Return r, []) ∧
    Forall (λ entry,
              1 ≤ index_of entry
              ≤ Z.of_nat (length ([(0, 25); (25, 33); (33, 63); (63, 73);
                                   (73, 78)]%Q : list (Q * Q))))%Z
      (process_segments r) ∧
    (process_total r
     ≤ Z.of_nat (length ([(0, 25); (25, 33); (33, 63); (63, 73);
                          (73, 78)]%Q : list (Q * Q))))%Z.
Proof.
  apply (process_video_within_segment_video second_cut_fails readable
           third_put_raises "bucket" "/tmp/shotcutter_a" last_first
           (λ path, Return path) (λ _, Return scenario_shots)
           (λ n, inject_Z (Z.of_nat n)) (import_module (Some 8%Z) None)
           "video.mp4" "clip" 30 7).
  - intros A l. symmetry. apply Permutation_rev.
  - reflexivity.
Defined.

Lemma entry_points_hang_witness :
  segment_video (λ path, Return path) (λ _, Return scenario_shots) 1000
    "video.mp4" 0
  = None ∧
  process_video second_cut_fails readable third_put_raises "bucket"
    "/tmp/shotcutter_a" last_first (λ path, Return path)
    (λ _, Return scenario_shots) (λ n, inject_Z (Z.of_nat n)) 1000
    (import_module (Some 8%Z) None) "video.mp4" "clip" 0
  = None.
Proof.
  apply (entry_points_hang second_cut_fails readable third_put_raises
           "bucket" "/tmp/shotcutter_a" last_first (λ path, Return path)
           (λ _, Return scenario_shots) (λ n, inject_Z (Z.of_nat n))
           (import_module (Some 8%Z) None) "video.mp4" "video.mp4" "clip" 0
           {| start_frame := 0; end_frame := 250;
              start_time := 0; end_time := 10; duration := 10 |}
           (tail scenario_shots) 1000);
    [by vm_compute|reflexivity|reflexivity|reflexivity].
Defined.

End EntryPointWitnesses.
